(** * Build utilities of the monorepo: package discovery, dependency graph,
      JSON and package.json writers

    A shallow embedding of [buildutils/src/utils.ts].  The functions of that
    file are effectful: they read and write files, load modules through
    Node's [require] (which keeps a module cache) and print to the console.
    They are embedded as computations in a state-and-exception monad over an
    explicit [State]; what Node and the imported packages provide ([path],
    [glob], [require.resolve], [JSON.parse], [JSON.stringify],
    [sort-package-json], [JSONExt.deepEqual], whether a file can be
    written) is gathered in a [Platform] record. *)

From Stdlib Require Import ZArith String Ascii List Bool Lia.
From stdpp Require Import base strings gmap list pretty.

Local Open Scope string_scope.
Local Open Scope Z_scope.

Set Warnings "-register-all".

(** ** JSON values *)

(** [JSONValue] of [@lumino/coreutils]: what [JSON.parse] returns.  Numbers
    are the integral ones; a JS object is the list of its own members in
    insertion order.  Keys that look like array indices, which JS lists
    first, are taken not to occur as package names. *)
Inductive JSON : Type :=
| JNull
| JBool (b : bool)
| JNumber (n : Z)
| JString (s : string)
| JArray (items : list JSON)
| JObject (members : list (string * JSON)).

(** [JSONObject]: the members of an object. *)
Abbreviation JSONObject := (list (string * JSON)).

(** [o[k]] and [k in o] on the members of an object. *)
Fixpoint obj_get {A : Type} (k : string) (o : list (string * A)) : option A :=
  match o with
  | [] => None
  | (k', v) :: o' => if String.eqb k k' then Some v else obj_get k o'
  end.

(** [o[k] = v]: an existing key keeps its position, a new key goes last. *)
Fixpoint obj_set {A : Type} (k : string) (v : A) (o : list (string * A))
  : list (string * A) :=
  match o with
  | [] => [(k, v)]
  | (k', v') :: o' =>
      if String.eqb k k' then (k, v) :: o' else (k', v') :: obj_set k v o'
  end.

Definition obj_keys {A : Type} (o : list (string * A)) : list string :=
  map fst o.

(** ** Thrown values *)

Inductive exn : Type :=
| MODULE_NOT_FOUND (request : string)
    (* thrown by require and require.resolve; e.code === 'MODULE_NOT_FOUND' *)
| ENOENT (path : string)
    (* thrown by fs.readFileSync *)
| SyntaxError (text : string)
    (* thrown by JSON.parse *)
| TypeError (what : string)
| CannotReadJSON (filePath : string) (cause : exn)
    (* the string `Cannot read JSON for path ${filePath}: ${e}` *)
| JsError (message : string)
    (* new Error(message) *)
| NodeDoesNotExist (name : string)
    (* thrown by the graph container *)
| SystemError (code path : string).
    (* thrown by fs.writeFileSync: e.code is ENOENT for a missing directory,
       EACCES for a file that may not be written, ... *)

Definition is_MODULE_NOT_FOUND (e : exn) : bool :=
  match e with MODULE_NOT_FOUND _ => true | _ => false end.

(** ** Dynamic typing: the operations the code applies to values of type
    [any].  A value that may be [undefined] is an [option JSON]. *)

Definition truthy (v : option JSON) : bool :=
  match v with
  | None => false
  | Some JNull => false
  | Some (JBool b) => b
  | Some (JNumber n) => negb (n =? 0)
  | Some (JString s) => negb (String.eqb s "")
  | Some (JArray _) => true
  | Some (JObject _) => true
  end.

(** [v.k] for the property names the code reads ([workspaces], [packages],
    [name], [dependencies]): a member of an object, [undefined] on arrays and
    primitives, a [TypeError] on [null]. *)
Definition prop (v : JSON) (k : string) : exn + option JSON :=
  match v with
  | JNull => inl (TypeError ("Cannot read properties of null (reading " +:+ k +:+ ")"))
  | JObject o => inr (obj_get k o)
  | _ => inr None
  end.

(** The decimal indices ["0"], ..., ["n-1"]. *)
Definition indices (n : nat) : list string :=
  map (fun i : nat => pretty (Z.of_nat i)) (seq 0 n).

(** [Object.keys(v)] for a value that is neither [null] nor [undefined]. *)
Definition Object_keys (v : JSON) : list string :=
  match v with
  | JObject o => obj_keys o
  | JArray l => indices (length l)
  | JString s => indices (String.length s)
  | _ => []
  end.

(** The characters of a string, as one-character strings. *)
Fixpoint chars (s : string) : list JSON :=
  match s with
  | EmptyString => []
  | String c s' => JString (String c EmptyString) :: chars s'
  end.

(** [for (const x of v)]: arrays and strings are iterable. *)
Definition iterate (v : option JSON) : exn + list JSON :=
  match v with
  | Some (JArray l) => inr l
  | Some (JString s) => inr (chars s)
  | _ => inl (TypeError "not iterable")
  end.

(** ToString of an array element inside [Array.prototype.join]. *)
Definition join_item (toString : JSON -> string) (v : JSON) : string :=
  match v with JNull => "" | _ => toString v end.

(** ToString. *)
Fixpoint ToString (v : JSON) : string :=
  match v with
  | JNull => "null"
  | JBool true => "true"
  | JBool false => "false"
  | JNumber n => pretty n
  | JString s => s
  | JArray l => String.concat "," (map (join_item ToString) l)
  | JObject _ => "[object Object]"
  end.

(** ToPropertyKey: the key under which [o[v] = ...] stores. *)
Definition ToPropertyKey (v : option JSON) : string :=
  match v with
  | None => "undefined"
  | Some v => ToString v
  end.

(** ** The state the functions act on *)

Record State : Type := mkState {
  fs : gmap string string;          (* the readable files: path to content *)
  require_cache : gmap string JSON; (* require.cache: filename to exports *)
  console_error : list exn;         (* what console.error printed, oldest first *)
  fs_writes : list (string * string) (* the files written by fs.writeFileSync, oldest first *)
}.

(** ** What Node and the imported packages provide *)

Record Platform : Type := mkPlatform {
  (* path.resolve(p) *)
  path_resolve : string -> string;
  (* path.join(a, b) *)
  path_join : string -> string -> string;
  (* glob.sync(pattern), on the given files *)
  glob_sync : gmap string string -> string -> list string;
  (* require.resolve(request) and require.resolve(request, {paths: [p]}),
     on the given files; None when the module cannot be found *)
  require_resolve : gmap string string -> option string -> string -> option string;
  (* JSON.parse(text); None is a SyntaxError *)
  JSON_parse : string -> option JSON;
  (* JSON.stringify(value, replacer, 2), for a replacer that is neither a
     function nor an array and therefore ignored *)
  JSON_stringify : JSON -> string;
  (* sortPackageJson(data) *)
  sortPackageJson : JSON -> JSON;
  (* JSONExt.deepEqual(first, second) of @lumino/coreutils *)
  deepEqual : JSON -> JSON -> bool;
  (* the code of the error with which fs.writeFileSync(path, ...) fails on
     the given files; None when the file can be written *)
  write_error : gmap string string -> string -> option string
}.

(** ** The monad: state passing with exceptions *)

Definition M (A : Type) : Type := State -> (exn + A) * State.

Definition ret {A : Type} (a : A) : M A := fun s => (inr a, s).

Definition throw {A : Type} (e : exn) : M A := fun s => (inl e, s).

Definition bind {A B : Type} (m : M A) (f : A -> M B) : M B :=
  fun s =>
    match m s with
    | (inl e, s') => (inl e, s')
    | (inr a, s') => f a s'
    end.

(** [try { m } catch (e) { h e }]: the effects of [m] before the throw stay. *)
Definition try_catch {A : Type} (m : M A) (h : exn -> M A) : M A :=
  fun s =>
    match m s with
    | (inl e, s') => h e s'
    | (inr a, s') => (inr a, s')
    end.

(** A pure step that may throw. *)
Definition lift {A : Type} (r : exn + A) : M A := fun s => (r, s).

Notation "'let*' x ':=' m 'in' f" := (bind m (fun x => f))
  (at level 10, x pattern, m at level 100, f at level 200).

(** [l.forEach(...)] and [for (... of l)] threading an accumulator. *)
Fixpoint foldM {A B : Type} (f : B -> A -> M B) (l : list A) (b : B) : M B :=
  match l with
  | [] => ret b
  | a :: l' => let* b' := f b a in foldM f l' b'
  end.

(** ** The graph container *)

(** What [depName in locals] finds beside the members of [locals]: the
    names that an object created by [{}] inherits from [Object.prototype]. *)
Definition Object_prototype : list string :=
  ["constructor"; "hasOwnProperty"; "isPrototypeOf"; "propertyIsEnumerable";
   "toLocaleString"; "toString"; "valueOf"; "__proto__";
   "__defineGetter__"; "__defineSetter__"; "__lookupGetter__"; "__lookupSetter__"].

(** What a node carries: the manifest of a package or, for a name that
    [locals] inherits, the inherited value, which is no JSON value (the
    function [Object] for [constructor]). *)
Inductive Payload : Type :=
| Manifest (data : JSON)
| Inherited (name : string).

Coercion Manifest : JSON >-> Payload.

(** [k in o], for an object [o] created by [{}]. *)
Definition has_property (k : string) (o : JSONObject) : bool :=
  bool_decide (k ∈ obj_keys o) || bool_decide (k ∈ Object_prototype).

(** [o[k]] when [k in o]: a member is found before an inherited value. *)
Definition get_property (k : string) (o : JSONObject) : Payload :=
  match obj_get k o with
  | Some v => Manifest v
  | None => Inherited k
  end.

(** Modelled from the spec: the container [DepGraph] comes from the package
    [dependency-graph], which is not part of the sources.  The spec gives
    the graph as a mapping from name to payload plus directed edges. *)
Record DepGraph : Type := mkGraph {
  nodes : list (string * Payload); (* name to payload, in insertion order *)
  edges : list (string * string)  (* (from, to), in insertion order *)
}.

(** Modelled from the spec: [new DepGraph()], no node and no edge. *)
Definition empty_graph : DepGraph := mkGraph [] [].

(** Modelled from the spec: [graph.hasNode(name)]. *)
Definition hasNode (g : DepGraph) (name : string) : bool :=
  bool_decide (name ∈ obj_keys (nodes g)).

(** Modelled from the spec: the (from, to) pair is an edge of the graph. *)
Definition hasEdge (g : DepGraph) (from to : string) : bool :=
  bool_decide ((from, to) ∈ edges g).

(** Modelled from the spec: [graph.addNode(name, data)]; each name maps to
    one node, and re-adding a name overwrites its payload rather than
    creating a duplicate. *)
Definition addNode (name : string) (data : Payload) (g : DepGraph) : DepGraph :=
  mkGraph (obj_set name data (nodes g)) (edges g).

(** Modelled from the spec: [graph.addDependency(from, to)]; the end points
    must already be nodes of the graph, and a (from, to) pair is kept
    once. *)
Definition addDependency (from to : string) (g : DepGraph) : exn + DepGraph :=
  if negb (hasNode g from) then inl (NodeDoesNotExist from)
  else if negb (hasNode g to) then inl (NodeDoesNotExist to)
  else if hasEdge g from to then inr g
  else inr (mkGraph (nodes g) (edges g ++ [(from, to)])).

(** ** String helpers *)

Definition CR : ascii := ascii_of_nat 13.
Definition LF : ascii := ascii_of_nat 10.
Definition newline : string := String LF EmptyString.

(** [s.split('\r\n')] *)
Fixpoint split_CRLF (s : string) : list string :=
  match s with
  | EmptyString => [EmptyString]
  | String c s' =>
      let cont :=
        match split_CRLF s' with
        | [] => [String c EmptyString]
        | piece :: pieces => String c piece :: pieces
        end in
      match s' with
      | String c' s'' =>
          if Ascii.eqb c CR && Ascii.eqb c' LF
          then EmptyString :: split_CRLF s''
          else cont
      | EmptyString => cont
      end
  end.

(** [pieces.join('\n')] *)
Definition join_LF (pieces : list string) : string :=
  String.concat newline pieces.

(** [keys.sort()]: insertion sort on the code units. *)
Fixpoint insert_sorted (k : string) (l : list string) : list string :=
  match l with
  | [] => [k]
  | k' :: l' => if String.leb k k' then k :: l else k' :: insert_sorted k l'
  end.

Definition sort_keys (l : list string) : list string :=
  foldr insert_sorted [] l.

(** The first thrown value of a list of results, or all the values. *)
Fixpoint sequence {A : Type} (l : list (exn + A)) : exn + list A :=
  match l with
  | [] => inr []
  | inl e :: _ => inl e
  | inr a :: l' =>
      match sequence l' with
      | inl e => inl e
      | inr l'' => inr (a :: l'')
      end
  end.

(** [sortObjByKey] (lines 100-113), the local function of [writeJSONFile].
    [typeof null] is ['object'] and [null] is not an array, so [null] reaches
    [Object.keys(null)], which throws.  The recursive calls are made on the
    members; the sorted keys decide their position in the result. *)
Fixpoint sortObjByKey (value : JSON) : exn + JSON :=
  match value with
  | JNull => inl (TypeError "Cannot convert undefined or null to object")
  | JArray l =>
      match sequence (map sortObjByKey l) with
      | inl e => inl e
      | inr l' => inr (JArray l')
      end
  | JObject o =>
      match sequence (map (fun kv : string * JSON =>
                             let (key, v) := kv in
                             match sortObjByKey v with
                             | inl e => inl e
                             | inr v' => inr (key, v')
                             end) o) with
      | inl e => inl e
      | inr o' =>
          inr (JObject (fold_left (fun acc key =>
                                     match obj_get key o' with
                                     | Some v => obj_set key v acc
                                     | None => acc
                                     end) (sort_keys (obj_keys o)) []))
      end
  | _ => inr value
  end.

(** Modelled from the spec: deep equality of JSON values, the
    [JSONExt.deepEqual] of the example platform; the function of
    [@lumino/coreutils] is not part of the sources.  Primitives are equal
    when they are the same, arrays when they have the same length and
    deep-equal elements, objects when they have the same keys and deep-equal
    values, whatever the order of their members. *)
Fixpoint deep_equal (first second : JSON) : bool :=
  match first, second with
  | JNull, JNull => true
  | JBool a, JBool b => Bool.eqb a b
  | JNumber a, JNumber b => (a =? b)
  | JString a, JString b => String.eqb a b
  | JArray l1, JArray l2 =>
      (length l1 =? length l2)%nat &&
      (fix deepArrayEqual (l1 l2 : list JSON) : bool :=
         match l1, l2 with
         | v1 :: l1', v2 :: l2' => deep_equal v1 v2 && deepArrayEqual l1' l2'
         | _, _ => true
         end) l1 l2
  | JObject o1, JObject o2 =>
      forallb (fun key => bool_decide (key ∈ obj_keys o2)) (obj_keys o1) &&
      forallb (fun key => bool_decide (key ∈ obj_keys o1)) (obj_keys o2) &&
      (fix deepObjectEqual (o : list (string * JSON)) : bool :=
         match o with
         | [] => true
         | (key, v1) :: o' =>
             match obj_get key o2 with
             | Some v2 => deep_equal v1 v2
             | None => false
             end && deepObjectEqual o'
         end) o1
  | _, _ => false
  end.

(** ** The functions of [utils.ts] *)

Section Utils.

Context (P : Platform).

(** *** Primitives of Node *)

(** [fs.readFileSync(path, 'utf8')] *)
Definition readFileSync (path : string) : M string :=
  fun s =>
    match fs s !! path with
    | Some text => (inr text, s)
    | None => (inl (ENOENT path), s)
    end.

(** [fs.writeFileSync(path, text, 'utf8')]: the file holds the text
    afterwards, unless the write fails and throws. *)
Definition writeFileSync (path text : string) : M unit :=
  fun s =>
    match write_error P (fs s) path with
    | Some code => (inl (SystemError code path), s)
    | None =>
        (inr tt, mkState (<[path := text]> (fs s)) (require_cache s)
                         (console_error s) (fs_writes s ++ [(path, text)]))
    end.

(** [fs.existsSync(path)] *)
Definition existsSync (files : gmap string string) (path : string) : bool :=
  bool_decide (is_Some (files !! path)).

(** [console.error(e)] *)
Definition console_error_ (e : exn) : M unit :=
  fun s =>
    (inr tt, mkState (fs s) (require_cache s) (console_error s ++ [e]) (fs_writes s)).

(** [JSON.parse(text)] *)
Definition JSON_parse_ (text : string) : M JSON :=
  match JSON_parse P text with
  | Some v => ret v
  | None => throw (SyntaxError text)
  end.

(** [require.resolve(request)] and [require.resolve(request, {paths})] *)
Definition require_resolve_ (paths : option string) (request : string) : M string :=
  fun s =>
    match require_resolve P (fs s) paths request with
    | Some filename => (inr filename, s)
    | None => (inl (MODULE_NOT_FOUND request), s)
    end.

(** [require(request)] of a JSON module: resolve the request, answer from
    the module cache when the file was loaded before, otherwise read and
    parse the file and remember its exports. *)
Definition require (request : string) : M JSON :=
  let* filename := require_resolve_ None request in
  fun s =>
    match require_cache s !! filename with
    | Some exports => (inr exports, s)
    | None =>
        (let* text := readFileSync filename in
         let* exports := JSON_parse_ text in
         fun s' =>
           (inr exports, mkState (fs s') (<[filename := exports]> (require_cache s'))
                                 (console_error s') (fs_writes s'))) s
    end.

(** [path.join(a, b)], which throws on an argument that is not a string. *)
Definition path_join_ (a : string) (b : JSON) : M string :=
  match b with
  | JString b => ret (path_join P a b)
  | _ => throw (TypeError "The path argument must be of type string")
  end.

(** *** [getLernaPaths] (lines 27-53) *)

Definition getLernaPaths (basePath : string) : M (list string) :=
  let basePath := path_resolve P basePath in
  let* packages :=
    try_catch
      (let* baseConfig := require (path_join P basePath "package.json") in
       let* workspaces := lift (prop baseConfig "workspaces") in
       match workspaces with
       | Some ws =>
           if truthy workspaces then
             let* ws_packages := lift (prop ws "packages") in
             ret (if truthy ws_packages then ws_packages else workspaces)
           else
             let* baseConfig := require (path_join P basePath "lerna.json") in
             lift (prop baseConfig "packages")
       | None =>
           let* baseConfig := require (path_join P basePath "lerna.json") in
           lift (prop baseConfig "packages")
       end)
      (fun e =>
         if is_MODULE_NOT_FOUND e then
           throw (JsError ("No yarn workspace / lerna package list found in " +:+ basePath))
         else throw e) in
  let* configs := lift (iterate packages) in
  let* paths :=
    foldM (fun paths config =>
             let* pattern := path_join_ basePath config in
             fun s => (inr (paths ++ glob_sync P (fs s) pattern)%list, s))
          configs [] in
  fun s =>
    (inr (List.filter (fun pkgPath => existsSync (fs s) (path_join P pkgPath "package.json")) paths), s).

(** *** [writePackageData] (lines 72-83) *)

Definition writePackageData (pkgJsonPath : string) (data : JSONObject) : M bool :=
  let text := JSON_stringify P (sortPackageJson P (JObject data)) +:+ newline in
  let* raw := readFileSync pkgJsonPath in
  let orig := join_LF (split_CRLF raw) in
  if negb (String.eqb text orig) then
    let* _ := writeFileSync pkgJsonPath text in
    ret true
  else ret false.

(** *** [readJSONFile] (lines 88-94) *)

Definition readJSONFile (filePath : string) : M JSON :=
  try_catch
    (let* text := readFileSync filePath in JSON_parse_ text)
    (fun e => throw (CannotReadJSON filePath e)).

(** *** [writeJSONFile] (lines 99-126) *)

Definition writeJSONFile (filePath : string) (data : JSONObject) : M bool :=
  let* _replacer := lift (sortObjByKey (JObject data)) in
  let text := JSON_stringify P (JObject data) +:+ newline in
  let* orig := try_catch (readJSONFile filePath) (fun _ => ret (JObject [])) in
  if negb (deepEqual P (JObject data) orig) then
    let* _ := writeFileSync filePath text in
    ret true
  else ret false.

(** *** [requirePackage] (lines 322-335) *)

Definition requirePackage (parentModule module : string) : M JSON :=
  let packagePath := module +:+ "/package.json" in
  let* located :=
    try_catch
      (let* parentModulePath := require_resolve_ None parentModule in
       ret (inr parentModulePath))
      (fun _ =>
         let* exports := require packagePath in
         ret (inl exports)) in
  match located with
  | inl exports => ret exports
  | inr parentModulePath =>
      let* requirePath := require_resolve_ (Some parentModulePath) packagePath in
      require requirePath
  end.

(** *** [getPackageGraph] (lines 267-314) *)

Definition mock_extension : string :=
  "./jupyterlab/tests/mock_packages/extension".
Definition mock_mimeextension : string :=
  "./jupyterlab/tests/mock_packages/mimeextension".

(** The body of [paths.forEach] (lines 278-288).  [locals[data.name] =
    data] makes a member of [locals] under every key but [__proto__], which
    is taken not to occur as the name of a manifest. *)
Definition gather (locals : JSONObject) (pkgPath : string) : M JSONObject :=
  let* read :=
    try_catch
      (let* data := readJSONFile (path_join P pkgPath "package.json") in
       ret (Some data))
      (fun e => let* _ := console_error_ e in ret None) in
  match read with
  | None => ret locals
  | Some data =>
      let* name := lift (prop data "name") in
      ret (obj_set (ToPropertyKey name) data locals)
  end.

(** The body of [Object.keys(deps).forEach] (lines 297-310). *)
Definition add_dep (locals : JSONObject) (name : string) (data : JSON)
    (graph : DepGraph) (depName : string) : M DepGraph :=
  let* graph :=
    if hasNode graph depName then ret graph
    else
      let* depData :=
        if has_property depName locals then ret (get_property depName locals)
        else
          let* exports := requirePackage name depName in
          ret (Manifest exports) in
      ret (addNode depName depData graph) in
  let* from := lift (prop data "name") in
  lift (addDependency (ToPropertyKey from) depName graph).

(** [data.dependencies || {}] *)
Definition dependencies (data : JSON) : exn + JSON :=
  match prop data "dependencies" with
  | inl e => inl e
  | inr (Some deps) => inr (if truthy (Some deps) then deps else JObject [])
  | inr None => inr (JObject [])
  end.

(** The body of [Object.keys(locals).forEach] (lines 293-311), on the
    member [name: data] of [locals] ([const data = locals[name]]). *)
Definition add_local (locals : JSONObject) (graph : DepGraph)
    (member : string * JSON) : M DepGraph :=
  let (name, data) := member in
  let graph := addNode name (Manifest data) graph in
  let* deps := lift (dependencies data) in
  foldM (add_dep locals name data) (Object_keys deps) graph.

(** [paths.forEach(...)] (lines 278-288): the mapping [locals]. *)
Definition gather_locals (paths : list string) : M JSONObject :=
  foldM gather paths [].

(** [Object.keys(locals).forEach(...)] (lines 292-311), on a new graph;
    [locals] has one member per key. *)
Definition build_graph (locals : JSONObject) : M DepGraph :=
  foldM (add_local locals) locals empty_graph.

Definition getPackageGraph : M DepGraph :=
  let* paths := getLernaPaths "." in
  let paths := (paths ++ [mock_extension; mock_mimeextension])%list in
  let* locals := gather_locals paths in
  build_graph locals.

End Utils.

(** ** A concrete platform

    A printer and a parser for JSON text in the style of
    [JSON.stringify(v, null, 2)] and [JSON.parse], and a platform whose
    [glob] and module resolution are given by tables.  The examples below
    run the functions on it. *)

Definition dquote : ascii := ascii_of_nat 34.
Definition backslash : ascii := ascii_of_nat 92.
Definition TAB : ascii := ascii_of_nat 9.

Definition hex_digit (n : nat) : ascii :=
  if (n <? 10)%nat then ascii_of_nat (48 + n) else ascii_of_nat (87 + n).

Definition escape_char (c : ascii) : string :=
  let n := nat_of_ascii c in
  if Ascii.eqb c dquote then String backslash (String dquote EmptyString)
  else if Ascii.eqb c backslash then String backslash (String backslash EmptyString)
  else if (n =? 8)%nat then String backslash "b"
  else if (n =? 9)%nat then String backslash "t"
  else if (n =? 10)%nat then String backslash "n"
  else if (n =? 12)%nat then String backslash "f"
  else if (n =? 13)%nat then String backslash "r"
  else if (n <? 32)%nat then
    String backslash
      ("u00" +:+ String (hex_digit (n / 16)) (String (hex_digit (n mod 16)) EmptyString))
  else String c EmptyString.

Fixpoint escape (s : string) : string :=
  match s with
  | EmptyString => EmptyString
  | String c s' => escape_char c +:+ escape s'
  end.

Definition quote (s : string) : string :=
  String dquote (escape s) +:+ String dquote EmptyString.

Fixpoint print_JSON_at (indent : string) (v : JSON) : string :=
  let inner := indent +:+ "  " in
  let sep := "," +:+ newline in
  match v with
  | JNull => "null"
  | JBool true => "true"
  | JBool false => "false"
  | JNumber n => pretty n
  | JString s => quote s
  | JArray [] => "[]"
  | JArray l =>
      "[" +:+ newline
      +:+ String.concat sep (map (fun v => inner +:+ print_JSON_at inner v) l)
      +:+ newline +:+ indent +:+ "]"
  | JObject [] => "{}"
  | JObject o =>
      "{" +:+ newline
      +:+ String.concat sep
            (map (fun kv : string * JSON =>
                    let (key, v) := kv in
                    inner +:+ quote key +:+ ": " +:+ print_JSON_at inner v) o)
      +:+ newline +:+ indent +:+ "}"
  end.

Definition print_JSON (v : JSON) : string := print_JSON_at "" v.

Definition is_ws (c : ascii) : bool :=
  Ascii.eqb c " " || Ascii.eqb c TAB || Ascii.eqb c LF || Ascii.eqb c CR.

Fixpoint skip_ws (s : string) : string :=
  match s with
  | String c s' => if is_ws c then skip_ws s' else s
  | EmptyString => s
  end.

Definition digit_of (c : ascii) : option Z :=
  let n := nat_of_ascii c in
  if (48 <=? n)%nat && (n <=? 57)%nat then Some (Z.of_nat (n - 48)) else None.

Definition hex_of (c : ascii) : option nat :=
  let n := nat_of_ascii c in
  if (48 <=? n)%nat && (n <=? 57)%nat then Some (n - 48)%nat
  else if (97 <=? n)%nat && (n <=? 102)%nat then Some (n - 87)%nat
  else if (65 <=? n)%nat && (n <=? 70)%nat then Some (n - 55)%nat
  else None.

(** The digits at the head of [s], read after the value [acc]. *)
Fixpoint parse_digits (acc : Z) (s : string) : Z * string :=
  match s with
  | String c s' =>
      match digit_of c with
      | Some d => parse_digits (10 * acc + d) s'
      | None => (acc, s)
      end
  | EmptyString => (acc, s)
  end.

Definition unescape (c : ascii) : option ascii :=
  if Ascii.eqb c dquote then Some dquote
  else if Ascii.eqb c backslash then Some backslash
  else if Ascii.eqb c "/" then Some "/"%char
  else if Ascii.eqb c "b" then Some (ascii_of_nat 8)
  else if Ascii.eqb c "f" then Some (ascii_of_nat 12)
  else if Ascii.eqb c "n" then Some LF
  else if Ascii.eqb c "r" then Some CR
  else if Ascii.eqb c "t" then Some TAB
  else None.

(** The characters of a string literal after its opening quote, and what
    follows the closing quote.  Escapes above code 255 are refused. *)
Fixpoint parse_chars (s : string) : option (string * string) :=
  match s with
  | EmptyString => None
  | String c s' =>
      if Ascii.eqb c dquote then Some (EmptyString, s')
      else if Ascii.eqb c backslash then
        match s' with
        | String e s'' =>
            if Ascii.eqb e "u" then
              match s'' with
              | String h1 (String h2 (String h3 (String h4 rest))) =>
                  match hex_of h1, hex_of h2, hex_of h3, hex_of h4 with
                  | Some O, Some O, Some a, Some b =>
                      match parse_chars rest with
                      | Some (str, r) => Some (String (ascii_of_nat (16 * a + b)) str, r)
                      | None => None
                      end
                  | _, _, _, _ => None
                  end
              | _ => None
              end
            else
              match unescape e, parse_chars s'' with
              | Some ch, Some (str, r) => Some (String ch str, r)
              | _, _ => None
              end
        | EmptyString => None
        end
      else if (nat_of_ascii c <? 32)%nat then None
      else
        match parse_chars s' with
        | Some (str, r) => Some (String c str, r)
        | None => None
        end
  end.

Definition starts_with (p s : string) : option string :=
  if String.prefix p s then Some (String.substring (String.length p) (String.length s - String.length p) s)
  else None.

(** A number: an optional minus sign and digits; fractions and exponents
    are outside the model and refused. *)
Definition parse_number (s : string) : option (JSON * string) :=
  let (negative, s1) :=
    match s with
    | String c s' => if Ascii.eqb c "-" then (true, s') else (false, s)
    | EmptyString => (false, s)
    end in
  match s1 with
  | String c _ =>
      match digit_of c with
      | Some _ =>
          let (n, r) := parse_digits 0 s1 in
          match r with
          | String c' _ =>
              if Ascii.eqb c' "." || Ascii.eqb c' "e" || Ascii.eqb c' "E" then None
              else Some (JNumber (if negative then - n else n), r)
          | EmptyString => Some (JNumber (if negative then - n else n), r)
          end
      | None => None
      end
  | EmptyString => None
  end.

(** The elements of an array after the first bracket, up to the closing
    bracket; [parse] reads one value. *)
Fixpoint parse_elements (parse : string -> option (JSON * string)) (k : nat) (s : string)
  : option (list JSON * string) :=
  match k with
  | O => None
  | S k =>
      match parse s with
      | Some (v, r) =>
          match skip_ws r with
          | String c r' =>
              if Ascii.eqb c "," then
                match parse_elements parse k r' with
                | Some (vs, r'') => Some (v :: vs, r'')
                | None => None
                end
              else if Ascii.eqb c "]" then Some ([v], r')
              else None
          | EmptyString => None
          end
      | None => None
      end
  end.

(** The members of an object after the first brace, up to the closing
    brace; a key that comes again replaces the value of the member. *)
Fixpoint parse_members (parse : string -> option (JSON * string)) (k : nat)
    (acc : JSONObject) (s : string) : option (JSONObject * string) :=
  match k with
  | O => None
  | S k =>
      match skip_ws s with
      | String q s1 =>
          if Ascii.eqb q dquote then
            match parse_chars s1 with
            | Some (key, s2) =>
                match skip_ws s2 with
                | String colon s3 =>
                    if Ascii.eqb colon ":" then
                      match parse s3 with
                      | Some (v, r) =>
                          match skip_ws r with
                          | String c r' =>
                              if Ascii.eqb c "," then
                                parse_members parse k (obj_set key v acc) r'
                              else if Ascii.eqb c "}" then
                                Some (obj_set key v acc, r')
                              else None
                          | EmptyString => None
                          end
                      | None => None
                      end
                    else None
                | EmptyString => None
                end
            | None => None
            end
          else None
      | EmptyString => None
      end
  end.

Fixpoint parse_value (fuel : nat) (s : string) : option (JSON * string) :=
  match fuel with
  | O => None
  | S fuel =>
      match skip_ws s with
      | EmptyString => None
      | String c r as s0 =>
          if Ascii.eqb c "[" then
            match skip_ws r with
            | String c' r' =>
                if Ascii.eqb c' "]" then Some (JArray [], r')
                else
                  match parse_elements (parse_value fuel) fuel r with
                  | Some (vs, r'') => Some (JArray vs, r'')
                  | None => None
                  end
            | EmptyString => None
            end
          else if Ascii.eqb c "{" then
            match skip_ws r with
            | String c' r' =>
                if Ascii.eqb c' "}" then Some (JObject [], r')
                else
                  match parse_members (parse_value fuel) fuel [] r with
                  | Some (o, r'') => Some (JObject o, r'')
                  | None => None
                  end
            | EmptyString => None
            end
          else if Ascii.eqb c dquote then
            match parse_chars r with
            | Some (str, r') => Some (JString str, r')
            | None => None
            end
          else
            match starts_with "null" s0, starts_with "true" s0, starts_with "false" s0 with
            | Some r', _, _ => Some (JNull, r')
            | _, Some r', _ => Some (JBool true, r')
            | _, _, Some r' => Some (JBool false, r')
            | _, _, _ => parse_number s0
            end
      end
  end.

Definition parse_JSON (text : string) : option JSON :=
  match parse_value (S (String.length text)) text with
  | Some (v, r) =>
      match skip_ws r with
      | EmptyString => Some v
      | _ => None
      end
  | None => None
  end.

(** Members sorted by key: a stand-in for [sort-package-json]. *)
Definition sort_members (v : JSON) : JSON :=
  match v with
  | JObject o =>
      JObject (omap (fun key => match obj_get key o with
                                | Some v => Some (key, v)
                                | None => None
                                end) (sort_keys (obj_keys o)))
  | _ => v
  end.

Fixpoint table_get {A B : Type} `{EqDecision A} (k : A) (t : list (A * B)) : option B :=
  match t with
  | [] => None
  | (k', v) :: t' => if decide (k = k') then Some v else table_get k t'
  end.

(** The platform with working directory [cwd], glob results [globs]
    (pattern to matches) and module locations [modules] (search root and
    request to filename); a request that names a readable file resolves to
    it; paths are joined with a slash; nothing can be written under
    [/readonly]. *)
Definition table_platform (cwd : string) (globs : list (string * list string))
    (modules : list ((option string * string) * string)) : Platform :=
  {| path_resolve p := if String.eqb p "." then cwd else p;
     path_join a b := a +:+ "/" +:+ b;
     glob_sync _ pattern := default [] (table_get pattern globs);
     require_resolve files paths request :=
       if existsSync files request then Some request
       else table_get (paths, request) modules;
     JSON_parse := parse_JSON;
     JSON_stringify := print_JSON;
     sortPackageJson := sort_members;
     deepEqual := deep_equal;
     write_error _ path :=
       if String.prefix "/readonly/" path then Some "EACCES" else None |}.

(** The state with the given files, nothing loaded, nothing printed. *)
Definition initial_state (files : list (string * string)) : State :=
  mkState (list_to_map files) ∅ [] [].

(** ** Example workspaces *)

Module Examples.

(** A workspace with packages [a], [b], a package [c] whose manifest is not
    JSON and a directory [d] without manifest; [a] depends on [b].  The two
    globs overlap on [packages/a]. *)
Definition root_manifest : JSON :=
  JObject [("name", JString "root");
           ("workspaces", JArray [JString "packages/*"; JString "packages/a"])].
Definition a_manifest : JSON :=
  JObject [("name", JString "a"); ("version", JString "1.0.0");
           ("dependencies", JObject [("b", JString "^1.0.0")])].
Definition b_manifest : JSON :=
  JObject [("name", JString "b"); ("version", JString "1.0.0")].

Definition workspace_files : list (string * string) :=
  [("/repo/package.json", print_JSON root_manifest +:+ newline);
   ("/repo/packages/a/package.json", print_JSON a_manifest +:+ newline);
   ("/repo/packages/b/package.json", print_JSON b_manifest +:+ newline);
   ("/repo/packages/c/package.json", "{ name: c")].

Definition workspace : Platform :=
  table_platform "/repo"
    [("/repo/packages/*",
      ["/repo/packages/a"; "/repo/packages/b"; "/repo/packages/c"; "/repo/packages/d"]);
     ("/repo/packages/a", ["/repo/packages/a"])]
    [].

Definition workspace_state : State := initial_state workspace_files.

Definition workspace_paths : list string :=
  ["/repo/packages/a"; "/repo/packages/b"; "/repo/packages/c"; "/repo/packages/a"].

Definition workspace_locals : JSONObject :=
  [("a", a_manifest); ("b", b_manifest)].

(** A directory whose manifest declares no workspaces, without [lerna.json]. *)
Definition plain_files : list (string * string) :=
  [("/repo/package.json", print_JSON b_manifest +:+ newline)].

(** A workspace whose package [a] depends on [left-pad], which is installed
    nowhere. *)
Definition broken_root : JSON :=
  JObject [("name", JString "root"); ("workspaces", JArray [JString "packages/*"])].
Definition broken : Platform :=
  table_platform "/repo" [("/repo/packages/*", ["/repo/packages/a"])] [].


(** Two local packages that depend on each other. *)
Definition mutual_a : JSON :=
  JObject [("name", JString "a"); ("dependencies", JObject [("b", JString "^1.0.0")])].

(** A manifest with Windows line ends. *)
Definition crlf_text : string :=
  "{" +:+ String CR newline +:+ "  " +:+ quote "name" +:+ ": " +:+ quote "b"
  +:+ String CR newline +:+ "}" +:+ String CR newline.

End Examples.

(** ** More of [utils.ts]: the text helpers and the command runner *)

(** What these functions take from Node: the path separator,
    [path.basename] and [child_process.execSync], whose answer may depend
    on the commands run before. *)
Record Host : Type := mkHost {
  (* path.sep *)
  path_sep : string;
  (* path.basename(p) *)
  path_basename : string -> string;
  (* childProcess.execSync(cmd, {stdio}) after the commands [history]: the
     output, null when it is not captured, or the error thrown *)
  execSync : list string -> string -> string -> exn + option string
}.

(** White space and line terminators of JS among the code units below 256:
    what [\s] matches, what [trim] removes and what [ToNumber] skips. *)
Definition isWhiteSpace (c : ascii) : bool :=
  let n := nat_of_ascii c in
  ((9 <=? n)%nat && (n <=? 13)%nat) || (n =? 32)%nat || (n =? 160)%nat.

(** What the regexp [.] does not match. *)
Definition isLineTerminator (c : ascii) : bool :=
  Ascii.eqb c LF || Ascii.eqb c CR.

(** [s.trim()] *)
Fixpoint trimStart (s : string) : string :=
  match s with
  | String c s' => if isWhiteSpace c then trimStart s' else s
  | EmptyString => EmptyString
  end.

Fixpoint trimEnd (s : string) : string :=
  match s with
  | EmptyString => EmptyString
  | String c s' =>
      match trimEnd s' with
      | EmptyString => if isWhiteSpace c then EmptyString else String c EmptyString
      | rest => String c rest
      end
  end.

Definition trim (s : string) : string := trimEnd (trimStart s).

(** What follows the prefix [p] in [s], if [s] starts with [p]. *)
Fixpoint strip_prefix (p s : string) : option string :=
  match p with
  | EmptyString => Some s
  | String a p' =>
      match s with
      | String b s' => if Ascii.eqb a b then strip_prefix p' s' else None
      | EmptyString => None
      end
  end.

(** [s.split(sep)] for a separator that is not empty: the pieces between
    the occurrences of [sep], found from the left. *)
Fixpoint split_fuel (fuel : nat) (sep s : string) : list string :=
  match fuel with
  | O => [s]
  | S fuel =>
      match strip_prefix sep s with
      | Some rest => EmptyString :: split_fuel fuel sep rest
      | None =>
          match s with
          | EmptyString => [EmptyString]
          | String c s' =>
              match split_fuel fuel sep s' with
              | piece :: pieces => String c piece :: pieces
              | [] => [String c EmptyString]
              end
          end
      end
  end.

Definition split (sep s : string) : list string :=
  split_fuel (S (String.length s)) sep s.

(** [pieces.join(sep)] *)
Definition join (sep : string) (pieces : list string) : string :=
  String.concat sep pieces.

(** *** [fromTemplate] (lines 147-174) *)

Fixpoint no_terminator (s : string) : bool :=
  match s with
  | EmptyString => true
  | String c s' => negb (isLineTerminator c) && no_terminator s'
  end.

(** The longest prefix of [s] made of [[^\S\r\n]]: white space other than
    CR and LF. *)
Fixpoint blank_prefix (s : string) : string :=
  match s with
  | String c s' =>
      if isWhiteSpace c && negb (isLineTerminator c)
      then String c (blank_prefix s') else EmptyString
  | EmptyString => EmptyString
  end.

(** The first group of [acc.match(indent)], [indent] being the regexp of
    line 164: a group of [[^\S\r\n]] repeated, then [.] repeated, then the
    end of the input.  The regexp matches at the first index from which no
    line terminator follows, where its group takes the white space; it
    matches at the end of [acc] at the latest, so that the match is never
    null. *)
Fixpoint indentRe (acc : string) : string :=
  match acc with
  | EmptyString => EmptyString
  | String _ acc' => if no_terminator acc then blank_prefix acc else indentRe acc'
  end.

(** The body of [Object.keys(subs).forEach] (lines 158-170). *)
Definition substitute (autoindent : bool) (templ key val : string) : string :=
  let pieces := split ("{{" +:+ key +:+ "}}") templ in
  if autoindent then
    match pieces with
    | first :: rest =>
        fold_left (fun acc cur =>
                     let indent := indentRe acc in
                     acc +:+ join (newline +:+ indent) (split newline val) +:+ cur)
                  rest first
    | [] => EmptyString
    end
  else join val pieces.

Record TemplateOptions : Type := mkTemplateOptions {
  autoindent : option bool;
  end_ : option string
}.

(** [subs] is the object of the substitutions, as its members in order. *)
Definition fromTemplate (templ : string) (subs : list (string * string))
    (options : TemplateOptions) : string :=
  let autoindent := match autoindent options with None => true | Some b => b end in
  let end_ := match end_ options with None => newline | Some e => e end in
  let templ :=
    fold_left (fun templ (sub : string * string) =>
                 substitute autoindent templ (fst sub) (snd sub)) subs templ in
  trim templ +:+ end_.

(** *** [run] (lines 243-261) and [prebump] (lines 207-224) *)

Record Shell : Type := mkShell {
  executed : list string;      (* the commands given to execSync, oldest first *)
  console_debug : list string  (* what console.debug printed after '>' *)
}.

(** [value.replace(/(\r\n|\n)$/, '')] *)
Fixpoint chomp (s : string) : string :=
  match s with
  | EmptyString => EmptyString
  | String c s' =>
      if String.eqb s (String CR newline) || String.eqb s newline
      then EmptyString else String c (chomp s')
  end.

Definition run (H : Host) (cmd : string) (stdio : option string) (quiet : bool)
  : Shell -> (exn + string) * Shell :=
  fun sh =>
    let stdio :=
      match stdio with
      | Some mode => if String.eqb mode "" then "inherit" else mode
      | None => "inherit"
      end in
    let debug := if quiet then console_debug sh else (console_debug sh ++ [cmd])%list in
    let sh' := mkShell (executed sh ++ [cmd])%list debug in
    match execSync H (executed sh) cmd stdio with
    | inl e => (inl e, sh')
    | inr None => (inr EmptyString, sh')
    | inr (Some value) => (inr (trim (chomp value)), sh')
    end.

Definition dirty_message (status : string) : string :=
  "Must be in a clean git state with no untracked files." +:+ newline
  +:+ "Run " +:+ String dquote "git status" +:+ String dquote " to see the issues."
  +:+ newline +:+ newline +:+ status.

Definition prebump (H : Host) : Shell -> (exn + unit) * Shell :=
  fun sh =>
    match run H "python -m pip install bump2version" None false sh with
    | (inl e, sh1) => (inl e, sh1)
    | (inr _, sh1) =>
        match run H "git status --porcelain" (Some "pipe") false sh1 with
        | (inl e, sh2) => (inl e, sh2)
        | (inr status, sh2) =>
            if (0 <? String.length status)%nat
            then (inl (JsError (dirty_message status)), sh2)
            else (inr tt, sh2)
        end
    end.

(** *** [ensureUnixPathSep] (lines 340-345) and [stem] (lines 354-356) *)

(** [source.replace(/\\/g, '/')] *)
Fixpoint replace_backslashes (source : string) : string :=
  match source with
  | EmptyString => EmptyString
  | String c s' =>
      String (if Ascii.eqb c backslash then "/"%char else c) (replace_backslashes s')
  end.

Definition ensureUnixPathSep (H : Host) (source : string) : string :=
  if String.eqb (path_sep H) "/" then source else replace_backslashes source.

(** [path.basename(pathArg).split('.').shift()] *)
Definition stem (H : Host) (pathArg : string) : string :=
  match split "." (path_basename H pathArg) with
  | first :: _ => first
  | [] => EmptyString
  end.

(** *** [camelCase] (lines 369-379) *)

Definition isUpper (c : ascii) : bool :=
  let n := nat_of_ascii c in (65 <=? n)%nat && (n <=? 90)%nat.

Definition isLower (c : ascii) : bool :=
  let n := nat_of_ascii c in (97 <=? n)%nat && (n <=? 122)%nat.

Definition isDigit (c : ascii) : bool :=
  let n := nat_of_ascii c in (48 <=? n)%nat && (n <=? 57)%nat.

(** [\w] *)
Definition isWord (c : ascii) : bool :=
  isUpper c || isLower c || isDigit c || Ascii.eqb c "_".

Definition toUpper (c : ascii) : ascii :=
  if isLower c then ascii_of_nat (nat_of_ascii c - 32) else c.

Definition toLower (c : ascii) : ascii :=
  if isUpper c then ascii_of_nat (nat_of_ascii c + 32) else c.

(** [m.toUpperCase()] and [m.toLowerCase()], for the matches of the regexp,
    which hold no letter outside A-Z and a-z. *)
Fixpoint toUpperCase (m : string) : string :=
  match m with
  | EmptyString => EmptyString
  | String c m' => String (toUpper c) (toUpperCase m')
  end.

Fixpoint toLowerCase (m : string) : string :=
  match m with
  | EmptyString => EmptyString
  | String c m' => String (toLower c) (toLowerCase m')
  end.

(** The length of the run of characters satisfying [f] at the head of [s]. *)
Fixpoint run_length (f : ascii -> bool) (s : string) : nat :=
  match s with
  | String c s' => if f c then S (run_length f s') else O
  | EmptyString => O
  end.

(** [\b] between the character before, if any, and the character [c]. *)
Definition word_boundary (prev : option ascii) (c : ascii) : bool :=
  xorb (match prev with Some p => isWord p | None => false end) (isWord c).

(** The regexp [/(?:^\w|[A-Z]|\b\w|\s+|-+|_+)/] tried at one index of the
    input, [s] being the input from there and [prev] the character before:
    the length of its match.  The alternatives are tried in order and the
    runs are greedy. *)
Definition camel_match (index : nat) (prev : option ascii) (s : string) : option nat :=
  match s with
  | EmptyString => None
  | String c _ =>
      if (index =? 0)%nat && isWord c then Some 1%nat
      else if isUpper c then Some 1%nat
      else if word_boundary prev c && isWord c then Some 1%nat
      else if isWhiteSpace c then Some (run_length isWhiteSpace s)
      else if Ascii.eqb c "-" then Some (run_length (Ascii.eqb "-") s)
      else if Ascii.eqb c "_" then Some (run_length (Ascii.eqb "_") s)
      else None
  end.

(** [+m === 0] for a match [m] of the regexp: white space only, or the
    digit zero. *)
Definition is_zero (m : string) : bool :=
  String.eqb (trim m) "" || String.eqb (trim m) "0".

(** The replacer function (lines 370-378). *)
Definition camel_replacer (upper : bool) (m : string) (index : nat) : string :=
  if is_zero m || match m with String c _ => Ascii.eqb c "-" | EmptyString => false end
  then EmptyString
  else if (index =? 0)%nat && negb upper then toLowerCase m
  else toUpperCase m.

Fixpoint take_string (n : nat) (s : string) : string :=
  match n, s with
  | S n', String c s' => String c (take_string n' s')
  | _, _ => EmptyString
  end.

(** [str.replace(regexp, replacer)] with the global regexp: from the left,
    a match is replaced and the search goes on behind it ([skip] counts the
    characters of the match still to pass); a character at which the
    regexp does not match is kept. *)
Fixpoint camel_go (upper : bool) (index : nat) (prev : option ascii) (skip : nat)
    (s : string) : string :=
  match s with
  | EmptyString => EmptyString
  | String c s' =>
      match skip with
      | S skip' => camel_go upper (S index) (Some c) skip' s'
      | O =>
          match camel_match index prev s with
          | Some n =>
              camel_replacer upper (take_string n s) index
              +:+ camel_go upper (S index) (Some c) (n - 1) s'
          | None => String c (camel_go upper (S index) (Some c) O s')
          end
      end
  end.

Definition camelCase (str : string) (upper : bool) : string :=
  camel_go upper 0 None 0 str.

(** Hosts for the examples: [path.basename] as the part behind the last
    slash, commands that print nothing. *)
Fixpoint after_last_slash (s : string) : string :=
  match s with
  | EmptyString => EmptyString
  | String c s' =>
      if existsb (Ascii.eqb "/") (list_ascii_of_string s') then after_last_slash s'
      else if Ascii.eqb c "/" then s' else s
  end.

Definition posix_host : Host :=
  mkHost "/" after_last_slash (fun _ _ _ => inr None).

Definition windows_host : Host :=
  mkHost (String backslash EmptyString) after_last_slash (fun _ _ _ => inr None).

(** A host on which [git status --porcelain] reports a modified file. *)
Definition dirty_host : Host :=
  mkHost "/" after_last_slash
    (fun _ cmd _ =>
       if String.eqb cmd "git status --porcelain"
       then inr (Some (" M buildutils/src/utils.ts" +:+ newline))
       else inr None).

Module MoreExamples.

(** A directory with [lerna.json] and a manifest without workspaces. *)
Definition lerna_config : JSON :=
  JObject [("packages", JArray [JString "packages/*"])].
Definition lerna_files : list (string * string) :=
  [("/repo/package.json", print_JSON Examples.b_manifest +:+ newline);
   ("/repo/lerna.json", print_JSON lerna_config +:+ newline);
   ("/repo/packages/a/package.json", print_JSON Examples.mutual_a +:+ newline)].

(** A directory with [lerna.json] and no manifest. *)
Definition lerna_only_files : list (string * string) :=
  [("/repo/lerna.json", print_JSON lerna_config +:+ newline);
   ("/repo/packages/a/package.json", print_JSON Examples.mutual_a +:+ newline)].

(** A directory whose manifest is not JSON. *)
Definition invalid_files : list (string * string) :=
  [("/repo/package.json", "{ name: root");
   ("/repo/lerna.json", print_JSON lerna_config +:+ newline)].

(** A manifest whose [workspaces] object has no [packages]. *)
Definition nohoist_root : JSON :=
  JObject [("name", JString "root");
           ("workspaces", JObject [("nohoist", JArray [JString "**/react"])])].
Definition nohoist_files : list (string * string) :=
  [("/repo/package.json", print_JSON nohoist_root +:+ newline)].


(** A workspace whose package [a] depends on [constructor], which is
    installed nowhere. *)
Definition inherited_a : JSON :=
  JObject [("name", JString "a");
           ("dependencies", JObject [("constructor", JString "^1.0.0")])].
Definition inherited_files : list (string * string) :=
  [("/repo/package.json", print_JSON Examples.broken_root +:+ newline);
   ("/repo/packages/a/package.json", print_JSON inherited_a +:+ newline)].

(** A workspace with a manifest that holds [null]. *)
Definition null_files : list (string * string) :=
  [("/repo/packages/a/package.json", print_JSON Examples.b_manifest +:+ newline);
   ("/repo/packages/b/package.json", "null")].

End MoreExamples.

(** ** Vocabulary of the statements *)

(** [extends s s']: [s'] has the files of [s], its module cache is the one
    of [s] with more modules loaded from these files, the console shows
    what it showed in [s], and no file was written in between. *)
Definition extends (P : Platform) (s s' : State) : Prop :=
  fs s' = fs s /\
  (forall f v, require_cache s !! f = Some v -> require_cache s' !! f = Some v) /\
  (forall f v, require_cache s' !! f = Some v -> require_cache s !! f = None ->
     exists text, fs s !! f = Some text /\ JSON_parse P text = Some v) /\
  (forall e, e ∈ console_error s -> e ∈ console_error s') /\
  fs_writes s' = fs_writes s.

(** A computation is [stable] when it only loads modules and when a later
    state makes no difference to its result. *)
Definition stable (P : Platform) {A : Type} (m : M A) : Prop :=
  (forall s, extends P s (snd (m s))) /\
  (forall s s2, extends P s s2 ->
     fst (m s2) = fst (m s) /\ extends P (snd (m s)) (snd (m s2))).

(** The manifest of [pkgPath] can be read and parsed. *)
Definition readable (P : Platform) (files : gmap string string) (pkgPath : string) : bool :=
  match files !! path_join P pkgPath "package.json" with
  | Some text => bool_decide (is_Some (JSON_parse P text))
  | None => false
  end.

(** The names a manifest declares as dependencies. *)
Definition deps_of (data : JSON) : list string :=
  match dependencies data with
  | inr deps => Object_keys deps
  | inl _ => []
  end.

(** The (declaring package, dependency) pairs of the local packages. *)
Definition declared (locals : JSONObject) : list (string * string) :=
  flat_map (fun member : string * JSON =>
              let (name, data) := member in map (pair name) (deps_of data)) locals.

(** A member of [locals] as [gather] stores it: under the key of its name. *)
Definition keyed (member : string * JSON) : Prop :=
  exists name, prop (snd member) "name" = inr name /\ ToPropertyKey name = fst member.

(** The manifest of [module] can be located, from some search root or
    directly. *)
Definition resolvable (P : Platform) (files : gmap string string) (module : string) : Prop :=
  exists paths filename,
    require_resolve P files paths (module +:+ "/package.json") = Some filename.

(** The failures of locating and loading the manifest of a dependency. *)
Definition UnresolvedDependencyError (e : exn) : Prop :=
  match e with
  | MODULE_NOT_FOUND _ | ENOENT _ | SyntaxError _ => True
  | _ => False
  end.

(** The invariant of the graph: one node per name, edges between nodes,
    one edge per pair. *)
Definition graph_ok (g : DepGraph) : Prop :=
  NoDup (obj_keys (nodes g)) /\
  NoDup (edges g) /\
  (forall from to, (from, to) ∈ edges g ->
     from ∈ obj_keys (nodes g) /\ to ∈ obj_keys (nodes g)).

(** The nodes of the local packages carry the manifests of [locals]. *)
Definition payload_ok (locals : JSONObject) (g : DepGraph) : Prop :=
  forall n v l, obj_get n (nodes g) = Some v -> obj_get n locals = Some l -> v = l.

(** A [null] somewhere in a value. *)
Fixpoint has_null (v : JSON) : bool :=
  match v with
  | JNull => true
  | JArray l => existsb has_null l
  | JObject o => existsb (fun kv : string * JSON => has_null (snd kv)) o
  | _ => false
  end.

(** ** Vocabulary of the further statements *)

(** Every character of [s] satisfies [f]. *)
Fixpoint all_chars (f : ascii -> bool) (s : string) : bool :=
  match s with
  | EmptyString => true
  | String c s' => f c && all_chars f s'
  end.

(** [sep] occurs in [s]. *)
Definition occurs (sep s : string) : Prop :=
  exists pre post, s = pre +:+ sep +:+ post.

Definition is_not (a : ascii) (c : ascii) : bool := negb (Ascii.eqb c a).

(** [[^\S\r\n]]: white space other than CR and LF. *)
Definition isBlank (c : ascii) : bool :=
  isWhiteSpace c && negb (isLineTerminator c).

(** The first letter in upper case. *)
Definition capitalize (w : string) : string :=
  match w with
  | EmptyString => EmptyString
  | String c w' => String (toUpper c) w'
  end.

(** What [camelCase] makes of the character [c] at [index], [prev] being
    the character before: the replacement of [c] when the regexp matches it
    alone, nothing for white space and dashes, the underscore itself, and
    [c] when the regexp does not match. *)
Definition camel_char (upper : bool) (index : nat) (prev : option ascii) (c : ascii)
  : string :=
  if (index =? 0)%nat && isWord c then camel_replacer upper (String c "") index
  else if isUpper c then camel_replacer upper (String c "") index
  else if word_boundary prev c && isWord c then camel_replacer upper (String c "") index
  else if isWhiteSpace c then ""
  else if Ascii.eqb c "-" then ""
  else if Ascii.eqb c "_" then "_"
  else String c "".

(** The last character of [p] followed by [s]. *)
Fixpoint prev_after (p : option ascii) (s : string) : option ascii :=
  match s with
  | EmptyString => p
  | String c s' => prev_after (Some c) s'
  end.

Fixpoint camel_chars (upper : bool) (index : nat) (prev : option ascii) (s : string)
  : string :=
  match s with
  | EmptyString => EmptyString
  | String c s' => camel_char upper index prev c +:+ camel_chars upper (S index) (Some c) s'
  end.

Fixpoint drop_string (n : nat) (s : string) : string :=
  match n, s with
  | S n', String _ s' => drop_string n' s'
  | _, _ => s
  end.

(** White space or a dash. *)
Definition isSeparator (c : ascii) : bool := isWhiteSpace c || Ascii.eqb c "-".

(** Lower case letters, digits and underscores. *)
Definition isSnake (c : ascii) : bool := isLower c || isDigit c || Ascii.eqb c "_".

(** The strings of a list one after the other. *)
Fixpoint glue (l : list string) : string :=
  match l with
  | [] => EmptyString
  | x :: l' => x +:+ glue l'
  end.

(** The manifest of [pkgPath], when it can be read and parsed. *)
Definition manifest (P : Platform) (files : gmap string string) (pkgPath : string)
  : option JSON :=
  match files !! path_join P pkgPath "package.json" with
  | Some text => JSON_parse P text
  | None => None
  end.

(** The text with every CRLF pair replaced by LF: the line endings
    normalized. *)
Fixpoint CRLF_to_LF (s : string) : string :=
  match s with
  | EmptyString => EmptyString
  | String c s' =>
      match s' with
      | String c' s'' =>
          if Ascii.eqb c CR && Ascii.eqb c' LF then String LF (CRLF_to_LF s'')
          else String c (CRLF_to_LF s')
      | EmptyString => String c EmptyString
      end
  end.




(** ** Checks of the embedding on small inputs *)

Example split_CRLF_example :
  split_CRLF ("a" +:+ String CR newline +:+ "b" +:+ String CR (String CR newline))
  = ["a"; "b" +:+ String CR EmptyString; ""].
Proof. reflexivity. Qed.

Example join_split_example :
  join_LF (split_CRLF Examples.crlf_text)
  = print_JSON (JObject [("name", JString "b")]) +:+ newline.
Proof. vm_compute. reflexivity. Qed.

Example sortObjByKey_example :
  sortObjByKey (JObject [("b", JNumber 1);
                         ("a", JObject [("z", JBool true); ("y", JArray [JNumber 2])])])
  = inr (JObject [("a", JObject [("y", JArray [JNumber 2]); ("z", JBool true)]);
                  ("b", JNumber 1)]).
Proof. vm_compute. reflexivity. Qed.

Example sortObjByKey_null :
  sortObjByKey (JObject [("a", JArray [JNumber 1; JNull])])
  = inl (TypeError "Cannot convert undefined or null to object").
Proof. reflexivity. Qed.

Example deep_equal_member_order :
  deep_equal (JObject [("a", JNumber 1); ("b", JArray [JNull])])
            (JObject [("b", JArray [JNull]); ("a", JNumber 1)]) = true.
Proof. vm_compute. reflexivity. Qed.

Example deep_equal_extra_member :
  deep_equal (JObject [("a", JNumber 1)]) (JObject [("a", JNumber 1); ("b", JNull)]) = false.
Proof. vm_compute. reflexivity. Qed.

Example parse_print_example :
  parse_JSON (print_JSON Examples.a_manifest +:+ newline) = Some Examples.a_manifest.
Proof. vm_compute. reflexivity. Qed.

Example ToPropertyKey_example :
  ToPropertyKey (Some (JArray [JNumber 1; JNull; JString "x"])) = "1,,x" /\
  ToPropertyKey None = "undefined".
Proof. split; vm_compute; reflexivity. Qed.

Example getPackageGraph_example :
  fst (getPackageGraph Examples.workspace Examples.workspace_state)
  = inr (mkGraph [("a", Manifest Examples.a_manifest); ("b", Manifest Examples.b_manifest)]
                 [("a", "b")]).
Proof. vm_compute. reflexivity. Qed.

(** ** The monad *)

Section Monad.

Context (P : Platform).

Lemma extends_refl s : extends P s s.
Proof.
  split; [reflexivity|]. split; [auto|].
  split; [intros f v Hs Hn; congruence|]. split; [auto|reflexivity].
Qed.

Lemma extends_trans s1 s2 s3 :
  extends P s1 s2 -> extends P s2 s3 -> extends P s1 s3.
Proof.
  intros (Hf1 & Hk1 & Hn1 & Hc1 & Hw1) (Hf2 & Hk2 & Hn2 & Hc2 & Hw2).
  split; [congruence|]. split; [auto|].
  split; [|split; [auto|congruence]].
  intros f v H3 H1.
  destruct (require_cache s2 !! f) as [v2|] eqn:E2.
  - pose proof (Hk2 _ _ E2) as H. rewrite H3 in H. inversion H; subst.
    eauto.
  - destruct (Hn2 _ _ H3 E2) as (text & Ht & Hp).
    exists text. split; [congruence|assumption].
Qed.

Lemma extends_fs s s' : extends P s s' -> fs s' = fs s.
Proof. intros (H & _). exact H. Qed.

Lemma stable_ret {A} (a : A) : stable P (ret a).
Proof. split; intros; [apply extends_refl|split; [reflexivity|assumption]]. Qed.

Lemma stable_throw {A} (e : exn) : stable P (@throw A e).
Proof. split; intros; [apply extends_refl|split; [reflexivity|assumption]]. Qed.

Lemma stable_lift {A} (r : exn + A) : stable P (lift r).
Proof. split; intros; [apply extends_refl|split; [reflexivity|assumption]]. Qed.

Lemma stable_bind {A B} (m : M A) (f : A -> M B) :
  stable P m -> (forall a, stable P (f a)) -> stable P (bind m f).
Proof.
  intros [Hm1 Hm2] Hf. split.
  - intros s. unfold bind. specialize (Hm1 s).
    destruct (m s) as [[e|a] s1]; simpl in *; [assumption|].
    eapply extends_trans; [eassumption|]. apply (Hf a).
  - intros s s2 Hx. unfold bind.
    destruct (Hm2 s s2 Hx) as [H2 H3].
    destruct (m s) as [[e|a] s1], (m s2) as [[e2|a2] s2']; simpl in *;
      try congruence.
    + inversion H2; subst e2. split; [reflexivity|assumption].
    + inversion H2; subst a2. apply (Hf a). assumption.
Qed.

Lemma stable_try_catch {A} (m : M A) (h : exn -> M A) :
  stable P m -> (forall e, stable P (h e)) -> stable P (try_catch m h).
Proof.
  intros [Hm1 Hm2] Hh. split.
  - intros s. unfold try_catch. specialize (Hm1 s).
    destruct (m s) as [[e|a] s1]; simpl in *; [|assumption].
    eapply extends_trans; [eassumption|]. apply (Hh e).
  - intros s s2 Hx. unfold try_catch.
    destruct (Hm2 s s2 Hx) as [H2 H3].
    destruct (m s) as [[e|a] s1], (m s2) as [[e2|a2] s2']; simpl in *;
      try congruence.
    + inversion H2; subst e2. apply (Hh e). assumption.
    + inversion H2; subst a2. split; [reflexivity|assumption].
Qed.

Lemma stable_foldM {A B} (f : B -> A -> M B) (l : list A) :
  (forall b a, stable P (f b a)) -> forall b, stable P (foldM f l b).
Proof.
  intros Hf. induction l as [|a l IH]; intros b; simpl.
  - apply stable_ret.
  - apply stable_bind; [apply Hf|]. intros b'. apply IH.
Qed.

(** Reading from the files without changing the state is stable. *)
Lemma stable_read {A} (f : gmap string string -> exn + A) :
  stable P (fun s => (f (fs s), s)).
Proof.
  split; intros; simpl; [apply extends_refl|].
  rewrite (extends_fs _ _ H). split; [reflexivity|assumption].
Qed.

(** Run again in the state it left, a stable computation gives the same
    result. *)
Lemma stable_replay {A} (m : M A) s :
  stable P m -> fst (m (snd (m s))) = fst (m s).
Proof. intros [H1 H2]. apply H2, H1. Qed.

(** A stable computation leaves the files alone. *)
Lemma stable_fs {A} (m : M A) s : stable P m -> fs (snd (m s)) = fs s.
Proof. intros [H1 _]. apply extends_fs, H1. Qed.

End Monad.

(** ** Stability of the primitives and of the functions that only read *)

Section Stability.

Context (P : Platform).

Lemma stable_readFileSync path : stable P (readFileSync path).
Proof.
  split.
  - intros s. unfold readFileSync. destruct (fs s !! path); apply extends_refl.
  - intros s s2 H. unfold readFileSync. rewrite (extends_fs _ _ _ H).
    destruct (fs s !! path); simpl; split; (reflexivity || assumption).
Qed.

Lemma stable_console_error_ e : stable P (console_error_ e).
Proof.
  split.
  - intros s. unfold console_error_, extends. simpl.
    split; [reflexivity|]. split; [auto|].
    split; [intros; congruence|]. split; [|reflexivity].
    intros e' H. apply elem_of_app. auto.
  - intros s s2 (Hfs & Hk & Hn & Hc & Hw). split; [reflexivity|].
    unfold console_error_, extends. simpl.
    split; [assumption|]. split; [assumption|]. split; [assumption|].
    split; [|assumption].
    intros e' H. apply elem_of_app in H as [H|H]; apply elem_of_app; auto.
Qed.

Lemma stable_JSON_parse_ text : stable P (JSON_parse_ P text).
Proof.
  unfold JSON_parse_. destruct (JSON_parse P text); [apply stable_ret|apply stable_throw].
Qed.

Lemma stable_require_resolve_ paths request :
  stable P (require_resolve_ P paths request).
Proof.
  split.
  - intros s. unfold require_resolve_.
    destruct (require_resolve P (fs s) paths request); apply extends_refl.
  - intros s s2 H. unfold require_resolve_. rewrite (extends_fs _ _ _ H).
    destruct (require_resolve P (fs s) paths request); simpl; split;
      (reflexivity || assumption).
Qed.

Lemma stable_path_join_ a b : stable P (path_join_ P a b).
Proof. destruct b; simpl; first [apply stable_ret|apply stable_throw]. Qed.

(** Remembering the exports of a file keeps a later state later. *)
Lemma extends_load s s2 filename text v :
  extends P s s2 ->
  fs s !! filename = Some text -> JSON_parse P text = Some v ->
  require_cache s !! filename = None ->
  extends P (mkState (fs s) (<[filename := v]> (require_cache s))
                     (console_error s) (fs_writes s))
            (match require_cache s2 !! filename with
             | Some _ => s2
             | None => mkState (fs s2) (<[filename := v]> (require_cache s2))
                               (console_error s2) (fs_writes s2)
             end).
Proof.
  intros (Hfs & Hk & Hn & Hc & Hw) Ef Ep Ec.
  destruct (require_cache s2 !! filename) as [v2|] eqn:E2; unfold extends; simpl.
  - destruct (Hn _ _ E2 Ec) as (text' & Ht & Hp).
    assert (v2 = v) by congruence. subst v2.
    split; [assumption|]. split; [|split; [|split; assumption]].
    + intros f w Hf. destruct (decide (filename = f)) as [<-|Hne].
      * rewrite lookup_insert_eq in Hf. congruence.
      * rewrite lookup_insert_ne in Hf by assumption. auto.
    + intros f w Hf Hnone. destruct (decide (filename = f)) as [<-|Hne].
      * rewrite lookup_insert_eq in Hnone. discriminate.
      * rewrite lookup_insert_ne in Hnone by assumption. auto.
  - split; [assumption|]. split; [|split; [|split; assumption]].
    + intros f w Hf. destruct (decide (filename = f)) as [<-|Hne].
      * rewrite lookup_insert_eq in Hf. rewrite lookup_insert_eq. assumption.
      * rewrite lookup_insert_ne in Hf by assumption.
        rewrite lookup_insert_ne by assumption. auto.
    + intros f w Hf Hnone. destruct (decide (filename = f)) as [<-|Hne].
      * rewrite lookup_insert_eq in Hnone. discriminate.
      * rewrite lookup_insert_ne in Hnone by assumption.
        rewrite lookup_insert_ne in Hf by assumption. auto.
Qed.

Lemma stable_require request : stable P (require P request).
Proof.
  unfold require. apply stable_bind; [apply stable_require_resolve_|].
  intros filename. split.
  - intros s. destruct (require_cache s !! filename) eqn:Ec; [apply extends_refl|].
    unfold bind, readFileSync.
    destruct (fs s !! filename) as [text|] eqn:Ef; [|apply extends_refl].
    unfold JSON_parse_. destruct (JSON_parse P text) as [v|] eqn:Ep; [|apply extends_refl].
    unfold extends; simpl. split; [reflexivity|].
    split; [|split; [|split; [auto|reflexivity]]].
    + intros f v' Hf. destruct (decide (filename = f)) as [->|Hne].
      * congruence.
      * rewrite lookup_insert_ne by assumption. exact Hf.
    + intros f v' Hf Hn. destruct (decide (filename = f)) as [->|Hne].
      * rewrite lookup_insert_eq in Hf. inversion Hf; subst. eauto.
      * rewrite lookup_insert_ne in Hf by assumption. congruence.
  - intros s s2 Hx. pose proof Hx as (Hfs & Hk & Hn & _).
    destruct (require_cache s !! filename) as [v|] eqn:Ec.
    + rewrite (Hk _ _ Ec). simpl. split; [reflexivity|assumption].
    + unfold bind, readFileSync. rewrite Hfs.
      destruct (fs s !! filename) as [text|] eqn:Ef.
      * unfold JSON_parse_. destruct (JSON_parse P text) as [v|] eqn:Ep.
        -- pose proof (extends_load _ _ _ _ _ Hx Ef Ep Ec) as Hl.
           simpl. destruct (require_cache s2 !! filename) as [v2|] eqn:E2; simpl.
           ++ destruct (Hn _ _ E2 Ec) as (text' & Ht & Hp').
              split; [congruence|assumption].
           ++ split; [reflexivity|assumption].
        -- simpl. destruct (require_cache s2 !! filename) as [v2|] eqn:E2; simpl.
           ++ destruct (Hn _ _ E2 Ec) as (text' & Ht & Hp'). congruence.
           ++ split; [reflexivity|assumption].
      * simpl. destruct (require_cache s2 !! filename) as [v2|] eqn:E2; simpl.
        -- destruct (Hn _ _ E2 Ec) as (text' & Ht & Hp'). congruence.
        -- split; [reflexivity|assumption].
Qed.

(** The combinators and primitives, applied as far as they go. *)
Ltac stable_steps :=
  repeat (intros;
          first [ apply stable_ret | apply stable_throw | apply stable_lift
                | apply stable_readFileSync | apply stable_console_error_
                | apply stable_JSON_parse_ | apply stable_require_resolve_
                | apply stable_path_join_ | apply stable_require
                | apply stable_bind | apply stable_try_catch | apply stable_foldM
                | match goal with
                  | |- stable _ (match ?x with _ => _ end) => destruct x
                  end ]).

Lemma stable_readJSONFile filePath : stable P (readJSONFile P filePath).
Proof. unfold readJSONFile. stable_steps. Qed.

Lemma stable_getLernaPaths basePath : stable P (getLernaPaths P basePath).
Proof.
  unfold getLernaPaths. apply stable_bind; [stable_steps|].
  intros packages. apply stable_bind; [stable_steps|].
  intros configs. apply stable_bind.
  - apply stable_foldM. intros paths config.
    apply stable_bind; [stable_steps|]. intros pattern.
    apply (stable_read P (fun files => inr (paths ++ glob_sync P files pattern)%list)).
  - intros paths.
    apply (stable_read P (fun files =>
             inr (List.filter (fun pkgPath => existsSync files (path_join P pkgPath "package.json")) paths))).
Qed.

Lemma stable_requirePackage parentModule module :
  stable P (requirePackage P parentModule module).
Proof. unfold requirePackage. stable_steps. Qed.

Lemma stable_gather locals pkgPath : stable P (gather P locals pkgPath).
Proof. unfold gather. stable_steps; apply stable_readJSONFile. Qed.

Lemma stable_add_dep locals name data graph depName :
  stable P (add_dep P locals name data graph depName).
Proof. unfold add_dep. stable_steps; apply stable_requirePackage. Qed.

Lemma stable_add_local locals graph member :
  stable P (add_local P locals graph member).
Proof.
  unfold add_local. destruct member as [name data].
  stable_steps; apply stable_add_dep.
Qed.

Lemma stable_gather_locals paths : stable P (gather_locals P paths).
Proof. apply stable_foldM. intros. apply stable_gather. Qed.

Lemma stable_build_graph locals : stable P (build_graph P locals).
Proof. apply stable_foldM. intros. apply stable_add_local. Qed.

Lemma stable_getPackageGraph : stable P (getPackageGraph P).
Proof.
  unfold getPackageGraph. apply stable_bind; [apply stable_getLernaPaths|].
  intros paths. apply stable_bind; [apply stable_gather_locals|].
  intros locals. apply stable_build_graph.
Qed.

End Stability.

(** ** Objects and the graph container *)

Section Objects.

Context {A : Type}.
Implicit Types (o : list (string * A)) (k : string) (v : A).

Lemma elem_of_obj_keys k v o : (k, v) ∈ o -> k ∈ obj_keys o.
Proof.
  induction o as [|[k' v'] o IH]; simpl; intros H.
  - inversion H.
  - apply elem_of_cons in H as [[= -> ->]|H]; [left|right; auto].
Qed.

Lemma obj_get_None k o : obj_get k o = None <-> k ∉ obj_keys o.
Proof.
  induction o as [|[k' v'] o IH]; simpl.
  - split; [intros _; apply not_elem_of_nil|reflexivity].
  - destruct (String.eqb_spec k k') as [->|Hne].
    + split; [discriminate|]. intros H. exfalso. apply H. left.
    + rewrite IH. rewrite not_elem_of_cons. tauto.
Qed.

Lemma obj_get_Some k o v : obj_get k o = Some v -> k ∈ obj_keys o.
Proof.
  intros H. destruct (decide (k ∈ obj_keys o)) as [|Hn]; [assumption|].
  apply obj_get_None in Hn. congruence.
Qed.

Lemma obj_get_is_Some k o : k ∈ obj_keys o -> is_Some (obj_get k o).
Proof.
  intros H. destruct (obj_get k o) eqn:E; [eauto|].
  apply obj_get_None in E. contradiction.
Qed.


Lemma obj_get_NoDup k o v : NoDup (obj_keys o) -> (k, v) ∈ o -> obj_get k o = Some v.
Proof.
  induction o as [|[k' v'] o IH]; simpl.
  - intros _ H. inversion H.
  - rewrite NoDup_cons. intros [Hn Hd] H.
    apply elem_of_cons in H as [[= -> ->]|H].
    + rewrite String.eqb_refl. reflexivity.
    + destruct (String.eqb_spec k k') as [->|Hne]; [|auto].
      exfalso. apply Hn. apply elem_of_obj_keys in H. exact H.
Qed.

Lemma obj_keys_set_in k v o :
  k ∈ obj_keys o -> obj_keys (obj_set k v o) = obj_keys o.
Proof.
  induction o as [|[k' v'] o IH]; simpl.
  - intros H. inversion H.
  - destruct (String.eqb_spec k k') as [->|Hne]; [reflexivity|].
    intros H. apply elem_of_cons in H as [H|H]; [contradiction|].
    simpl. f_equal. auto.
Qed.

Lemma obj_keys_set_notin k v o :
  k ∉ obj_keys o -> obj_keys (obj_set k v o) = (obj_keys o ++ [k])%list.
Proof.
  induction o as [|[k' v'] o IH]; simpl; [reflexivity|].
  rewrite not_elem_of_cons. intros [Hne H].
  destruct (String.eqb_spec k k') as [->|_]; [contradiction|].
  simpl. f_equal. auto.
Qed.

Lemma elem_of_obj_keys_set k' k v o :
  k' ∈ obj_keys (obj_set k v o) <-> k' ∈ obj_keys o \/ k' = k.
Proof.
  destruct (decide (k ∈ obj_keys o)) as [Hin|Hn].
  - rewrite obj_keys_set_in by assumption.
    split; [auto|]. intros [H| ->]; assumption.
  - rewrite obj_keys_set_notin by assumption.
    rewrite elem_of_app, list_elem_of_singleton. reflexivity.
Qed.

Lemma obj_set_NoDup k v o : NoDup (obj_keys o) -> NoDup (obj_keys (obj_set k v o)).
Proof.
  intros H. destruct (decide (k ∈ obj_keys o)) as [Hin|Hn].
  - rewrite obj_keys_set_in by assumption. assumption.
  - rewrite obj_keys_set_notin by assumption.
    apply NoDup_app. split; [assumption|]. split.
    + intros x Hx Hk. apply list_elem_of_singleton in Hk. subst. contradiction.
    + apply NoDup_singleton.
Qed.

Lemma obj_get_set_eq k v o : obj_get k (obj_set k v o) = Some v.
Proof.
  induction o as [|[k' v'] o IH]; simpl.
  - rewrite String.eqb_refl. reflexivity.
  - destruct (String.eqb_spec k k') as [->|Hne]; simpl.
    + rewrite String.eqb_refl. reflexivity.
    + destruct (String.eqb_spec k k'); [contradiction|assumption].
Qed.

Lemma obj_get_set_ne k k' v o : k' <> k -> obj_get k' (obj_set k v o) = obj_get k' o.
Proof.
  intros Hne. induction o as [|[k'' v''] o IH]; simpl.
  - destruct (String.eqb_spec k' k); [contradiction|reflexivity].
  - destruct (String.eqb_spec k k'') as [->|Hne']; simpl.
    + destruct (String.eqb_spec k' k''); [contradiction|reflexivity].
    + destruct (String.eqb_spec k' k''); [reflexivity|assumption].
Qed.

Lemma obj_set_same k v o : obj_get k o = Some v -> obj_set k v o = o.
Proof.
  induction o as [|[k' v'] o IH]; simpl; [discriminate|].
  destruct (String.eqb_spec k k') as [->|Hne].
  - intros [= ->]. reflexivity.
  - intros H. rewrite IH by assumption. reflexivity.
Qed.

Lemma elem_of_obj_set (m : string * A) k v o :
  m ∈ obj_set k v o -> m = (k, v) \/ m ∈ o.
Proof.
  induction o as [|[k' v'] o IH]; simpl.
  - intros H. apply list_elem_of_singleton in H. auto.
  - destruct (String.eqb_spec k k') as [->|Hne]; intros H;
      apply elem_of_cons in H as [H|H].
    + auto.
    + right. right. assumption.
    + right. subst. left.
    + destruct (IH H) as [|]; [auto|]. right. right. assumption.
Qed.

End Objects.

Section Container.

Implicit Types (g : DepGraph).

Lemma hasNode_true g n : hasNode g n = true <-> n ∈ obj_keys (nodes g).
Proof. unfold hasNode. apply bool_decide_eq_true. Qed.

Lemma hasNode_false g n : hasNode g n = false <-> n ∉ obj_keys (nodes g).
Proof. unfold hasNode. apply bool_decide_eq_false. Qed.

Lemma graph_ok_empty : graph_ok empty_graph.
Proof.
  unfold graph_ok, empty_graph; simpl.
  split; [apply NoDup_nil_2|]. split; [apply NoDup_nil_2|].
  intros from to H. inversion H.
Qed.

Lemma graph_ok_addNode n d g : graph_ok g -> graph_ok (addNode n d g).
Proof.
  intros (Hn & He & Hin). unfold graph_ok, addNode; simpl.
  split; [apply obj_set_NoDup; assumption|]. split; [assumption|].
  intros from to H. destruct (Hin _ _ H) as [H1 H2].
  split; apply elem_of_obj_keys_set; auto.
Qed.

Lemma elem_of_addNode n' n d g :
  n' ∈ obj_keys (nodes (addNode n d g)) <-> n' ∈ obj_keys (nodes g) \/ n' = n.
Proof. unfold addNode; simpl. apply elem_of_obj_keys_set. Qed.

(** An edge is added between two nodes the graph has; it changes no node. *)
Lemma addDependency_inr from to g g' :
  addDependency from to g = inr g' ->
  from ∈ obj_keys (nodes g) /\ to ∈ obj_keys (nodes g) /\
  nodes g' = nodes g /\
  (forall e, e ∈ edges g' <-> e ∈ edges g \/ e = (from, to)) /\
  (graph_ok g -> graph_ok g').
Proof.
  unfold addDependency.
  destruct (hasNode g from) eqn:Hf; simpl; [|discriminate].
  destruct (hasNode g to) eqn:Ht; simpl; [|discriminate].
  apply hasNode_true in Hf, Ht.
  unfold hasEdge. case_bool_decide as He; intros [= <-]; simpl.
  - split; [assumption|]. split; [assumption|]. split; [reflexivity|].
    split; [|auto].
    intros e. split; [auto|]. intros [H| ->]; assumption.
  - split; [assumption|]. split; [assumption|]. split; [reflexivity|]. split.
    + intros e. rewrite elem_of_app, list_elem_of_singleton. reflexivity.
    + intros (Hn & Hd & Hin). unfold graph_ok; simpl.
      split; [assumption|]. split.
      * apply NoDup_app. split; [assumption|].
        split; [|apply NoDup_singleton].
        intros x Hx Hs. apply list_elem_of_singleton in Hs. subst. contradiction.
      * intros f t H. apply elem_of_app in H as [H|H]; [apply (Hin _ _ H)|].
        apply list_elem_of_singleton in H. inversion H; subst. auto.
Qed.

Lemma addDependency_nodes from to g :
  from ∈ obj_keys (nodes g) -> to ∈ obj_keys (nodes g) ->
  exists g', addDependency from to g = inr g'.
Proof.
  intros Hf Ht. unfold addDependency.
  apply hasNode_true in Hf, Ht. rewrite Hf, Ht. simpl.
  destruct (hasEdge g from to); eauto.
Qed.

End Container.

(** ** The graph builder *)

Section Builder.

Context (P : Platform).

Lemma require_error request s e s' :
  require P request s = (inl e, s') -> UnresolvedDependencyError e.
Proof.
  unfold require, bind, require_resolve_.
  destruct (require_resolve P (fs s) None request) as [filename|];
    [|intros [= <- _]; exact I].
  destruct (require_cache s !! filename); [discriminate|].
  unfold readFileSync. destruct (fs s !! filename) as [text|];
    [|intros [= <- _]; exact I].
  unfold JSON_parse_. destruct (JSON_parse P text); simpl; [discriminate|].
  intros [= <- _]. exact I.
Qed.

Lemma require_inr request s v s' :
  require P request s = (inr v, s') ->
  exists filename, require_resolve P (fs s) None request = Some filename.
Proof.
  unfold require, bind, require_resolve_.
  destruct (require_resolve P (fs s) None request) as [filename|];
    [eauto|discriminate].
Qed.

Lemma requirePackage_error parentModule module s e s' :
  requirePackage P parentModule module s = (inl e, s') ->
  UnresolvedDependencyError e.
Proof.
  unfold requirePackage, bind, try_catch, require_resolve_ at 1.
  destruct (require_resolve P (fs s) None parentModule) as [parentModulePath|]; simpl.
  - unfold require_resolve_.
    destruct (require_resolve P (fs s) (Some parentModulePath) _) as [requirePath|].
    + apply require_error.
    + intros [= <- _]. exact I.
  - destruct (require P (module +:+ "/package.json") s) as [[e'|v] s1] eqn:E; simpl.
    + intros [= <- _]. eapply require_error. eassumption.
    + discriminate.
Qed.

Lemma requirePackage_inr parentModule module s v s' :
  requirePackage P parentModule module s = (inr v, s') ->
  resolvable P (fs s) module.
Proof.
  unfold requirePackage, bind, try_catch, require_resolve_ at 1, resolvable.
  destruct (require_resolve P (fs s) None parentModule) as [parentModulePath|]; simpl.
  - unfold require_resolve_.
    destruct (require_resolve P (fs s) (Some parentModulePath) _) as [requirePath|] eqn:E.
    + eauto.
    + discriminate.
  - destruct (require P (module +:+ "/package.json") s) as [[e'|v'] s1] eqn:E; simpl.
    + discriminate.
    + intros _. apply require_inr in E. destruct E. eauto.
Qed.

Lemma keyed_dependencies name data :
  keyed (name, data) ->
  exists deps, dependencies data = inr deps /\ deps_of data = Object_keys deps.
Proof.
  intros (nm & Hp & _). simpl in Hp. unfold deps_of.
  destruct data; try discriminate; unfold dependencies; simpl; eauto.
  destruct (obj_get "dependencies" members); eauto.
Qed.

Lemma add_edge_spec name d g :
  name ∈ obj_keys (nodes g) -> d ∈ obj_keys (nodes g) -> graph_ok g ->
  exists g', addDependency name d g = inr g' /\ graph_ok g' /\
             nodes g' = nodes g /\
             (forall e, e ∈ edges g' <-> e ∈ edges g \/ e = (name, d)).
Proof.
  intros Hn Hd Hok. destruct (addDependency_nodes _ _ _ Hn Hd) as [g' Hg'].
  exists g'. split; [assumption|].
  destruct (addDependency_inr _ _ _ _ Hg') as (_ & _ & Hnodes & He & Hk).
  auto.
Qed.

(** One dependency: the graph gains the node of the dependency, if it is
    new, and the edge; the only failure is the one of [requirePackage]. *)
Lemma add_dep_spec locals name data g d s :
  keyed (name, data) -> name ∈ obj_keys (nodes g) -> graph_ok g ->
  match add_dep P locals name data g d s with
  | (inl e, s') =>
      UnresolvedDependencyError e /\ (d ∉ obj_keys (nodes g)) /\
      obj_get d locals = None
  | (inr g', s') =>
      graph_ok g' /\
      (forall n, n ∈ obj_keys (nodes g') <-> n ∈ obj_keys (nodes g) \/ n = d) /\
      (forall e, e ∈ edges g' <-> e ∈ edges g \/ e = (name, d)) /\
      (d ∈ obj_keys (nodes g) \/ d ∈ obj_keys locals \/
       d ∈ Object_prototype \/ resolvable P (fs s) d)
  end.
Proof.
  intros (nm & Hp & Hk) Hn Hok. simpl in Hp, Hk.
  unfold add_dep, bind.
  destruct (hasNode g d) eqn:Hd.
  - apply hasNode_true in Hd. unfold ret, lift. rewrite Hp, Hk.
    destruct (add_edge_spec _ _ _ Hn Hd Hok) as (g' & -> & Hok' & Hnodes & He).
    split; [assumption|]. split; [|split; [assumption|auto]].
    intros n. rewrite Hnodes. split; [auto|]. intros [H| ->]; assumption.
  - apply hasNode_false in Hd.
    assert (forall depData s1,
      match lift (addDependency (ToPropertyKey nm) d (addNode d depData g)) s1 with
      | (inl e, _) => False
      | (inr g', _) =>
          graph_ok g' /\
          (forall n, n ∈ obj_keys (nodes g') <-> n ∈ obj_keys (nodes g) \/ n = d) /\
          (forall e, e ∈ edges g' <-> e ∈ edges g \/ e = (name, d))
      end) as Hadd.
    { intros depData s1. unfold lift. rewrite Hk.
      destruct (add_edge_spec name d (addNode d depData g)) as (g' & -> & Hok' & Hnodes & He).
      - apply elem_of_addNode. auto.
      - apply elem_of_addNode. auto.
      - apply graph_ok_addNode. assumption.
      - split; [assumption|]. split; [|assumption].
        intros n. rewrite Hnodes. apply elem_of_addNode. }
    destruct (has_property d locals) eqn:El.
    + unfold ret. unfold lift at 1. rewrite Hp.
      specialize (Hadd (get_property d locals) s).
      destruct (lift _ s) as [[e|g'] s1]; [contradiction|].
      destruct Hadd as (H1 & H2 & H3).
      split; [assumption|]. split; [assumption|]. split; [assumption|].
      right. apply orb_true_iff in El as [El|El]; apply bool_decide_eq_true in El; auto.
    + apply orb_false_iff in El as [El _]. apply bool_decide_eq_false in El.
      destruct (requirePackage P name d s) as [[e|depData] s1] eqn:Er.
      * split; [eapply requirePackage_error; eassumption|].
        split; [assumption|]. apply obj_get_None. assumption.
      * unfold ret. unfold lift at 1. rewrite Hp.
        specialize (Hadd (Manifest depData) s1).
        destruct (lift _ s1) as [[e|g'] s2]; [contradiction|].
        destruct Hadd as (H1 & H2 & H3).
        split; [assumption|]. split; [assumption|]. split; [assumption|].
        right. right. right. eapply requirePackage_inr. eassumption.
Qed.

(** The dependencies of one package. *)
Lemma add_deps_spec locals name data ds :
  keyed (name, data) ->
  forall g s, name ∈ obj_keys (nodes g) -> graph_ok g ->
  match foldM (add_dep P locals name data) ds g s with
  | (inl e, s') =>
      UnresolvedDependencyError e /\ exists d, d ∈ ds /\ obj_get d locals = None
  | (inr g', s') =>
      graph_ok g' /\
      (forall n, n ∈ obj_keys (nodes g') <-> n ∈ obj_keys (nodes g) \/ n ∈ ds) /\
      (forall e, e ∈ edges g' <-> e ∈ edges g \/ exists d, d ∈ ds /\ e = (name, d)) /\
      (forall n, n ∈ ds ->
         n ∈ obj_keys (nodes g) \/ n ∈ obj_keys locals \/
         n ∈ Object_prototype \/ resolvable P (fs s) n)
  end.
Proof.
  intros Hkeyed. induction ds as [|d ds IH]; intros g s Hn Hok; simpl.
  - split; [assumption|]. split; [|split].
    + intros n. rewrite elem_of_nil. tauto.
    + intros e. split; [auto|]. intros [H|(d & H & _)]; [assumption|inversion H].
    + intros n H. inversion H.
  - unfold bind.
    pose proof (add_dep_spec locals name data g d s Hkeyed Hn Hok) as Hstep.
    pose proof (stable_fs P _ s (stable_add_dep P locals name data g d)) as Hfs.
    destruct (add_dep P locals name data g d s) as [[e|g1] s1].
    { destruct Hstep as (He & _ & Hl). split; [assumption|].
      exists d. split; [left|assumption]. }
    simpl in Hfs. destruct Hstep as (Hok1 & Hn1 & He1 & Hprov).
    assert (name ∈ obj_keys (nodes g1)) as Hn' by (apply Hn1; auto).
    specialize (IH g1 s1 Hn' Hok1).
    destruct (foldM _ ds g1 s1) as [[e|g'] s'].
    { destruct IH as (He & d' & Hd' & Hl). split; [assumption|].
      exists d'. split; [right; assumption|assumption]. }
    destruct IH as (Hok' & Hn2 & He2 & Hprov2).
    split; [assumption|]. split; [|split].
    + intros n. rewrite Hn2, Hn1, elem_of_cons. tauto.
    + intros e. rewrite He2, He1. split.
      * intros [[H|H]|(d' & H & He)]; [auto| |].
        -- right. exists d. split; [left|assumption].
        -- right. exists d'. split; [right; assumption|assumption].
      * intros [H|(d' & H & He)]; [auto|].
        apply elem_of_cons in H as [->|H]; [auto|].
        right. eauto.
    + intros n H. apply elem_of_cons in H as [->|H]; [assumption|].
      destruct (Hprov2 n H) as [H'|[H'|H']].
      * apply Hn1 in H' as [H'| ->]; [auto|assumption].
      * auto.
      * rewrite Hfs in H'. auto.
Qed.

Lemma elem_of_declared (todo : JSONObject) m n :
  (m, n) ∈ declared todo <-> exists data, (m, data) ∈ todo /\ n ∈ deps_of data.
Proof.
  unfold declared. rewrite list_elem_of_In, in_flat_map. split.
  - intros ([m' data] & Hin & H). apply in_map_iff in H as (d & [= <- <-] & Hd).
    exists data. rewrite !list_elem_of_In. auto.
  - intros (data & Hin & Hd). exists (m, data).
    apply list_elem_of_In in Hin. apply list_elem_of_In in Hd. split; [assumption|].
    apply in_map_iff. eauto.
Qed.

(** One local package: its node, then its dependencies. *)
Lemma add_local_spec locals name data g s :
  keyed (name, data) -> graph_ok g ->
  match add_local P locals g (name, data) s with
  | (inl e, s') =>
      UnresolvedDependencyError e /\
      exists d, d ∈ deps_of data /\ obj_get d locals = None
  | (inr g', s') =>
      graph_ok g' /\
      (forall n, n ∈ obj_keys (nodes g') <->
                 n ∈ obj_keys (nodes g) \/ n = name \/ n ∈ deps_of data) /\
      (forall e, e ∈ edges g' <->
                 e ∈ edges g \/ exists d, d ∈ deps_of data /\ e = (name, d)) /\
      (forall n, n ∈ deps_of data ->
         n ∈ obj_keys (nodes g) \/ n = name \/ n ∈ obj_keys locals \/
         n ∈ Object_prototype \/ resolvable P (fs s) n)
  end.
Proof.
  intros Hkeyed Hok. unfold add_local.
  destruct (keyed_dependencies _ _ Hkeyed) as (deps & Hdeps & ->).
  unfold bind, lift at 1. rewrite Hdeps.
  pose proof (add_deps_spec locals name data (Object_keys deps) Hkeyed
                (addNode name data g) s) as H.
  destruct (foldM _ (Object_keys deps) (addNode name data g) s) as [[e|g'] s'].
  - apply H; [apply elem_of_addNode; auto|apply graph_ok_addNode; assumption].
  - destruct H as (Hok' & Hn & He & Hprov);
      [apply elem_of_addNode; auto|apply graph_ok_addNode; assumption|].
    split; [assumption|]. split; [|split; [assumption|]].
    + intros n. rewrite Hn, elem_of_addNode. tauto.
    + intros n Hin. destruct (Hprov n Hin) as [H|[H|H]]; [|auto|auto].
      apply elem_of_addNode in H. tauto.
Qed.

(** The local packages [todo], added to a graph [g]. *)
Lemma add_locals_spec locals (todo : JSONObject) :
  Forall keyed todo ->
  forall g s, graph_ok g ->
  match foldM (add_local P locals) todo g s with
  | (inl e, s') =>
      UnresolvedDependencyError e /\
      exists m d, (m, d) ∈ declared todo /\ obj_get d locals = None
  | (inr g', s') =>
      graph_ok g' /\
      (forall n, n ∈ obj_keys (nodes g') <->
                 n ∈ obj_keys (nodes g) \/ n ∈ obj_keys todo \/
                 exists m, (m, n) ∈ declared todo) /\
      (forall e, e ∈ edges g' <-> e ∈ edges g \/ e ∈ declared todo) /\
      (forall n, n ∈ obj_keys (nodes g') ->
         n ∈ obj_keys (nodes g) \/ n ∈ obj_keys todo \/ n ∈ obj_keys locals \/
         n ∈ Object_prototype \/ resolvable P (fs s) n)
  end.
Proof.
  induction todo as [|[name data] todo IH]; intros Hall g s Hok; cbn [foldM].
  - unfold ret. split; [assumption|]. split; [|split].
    + intros n. split; [auto|]. intros [H|[H|(m & H)]]; [assumption| |]; inversion H.
    + intros e. split; [auto|]. intros [H|H]; [assumption|inversion H].
    + auto.
  - apply Forall_cons in Hall as [Hkeyed Hall]. unfold bind.
    pose proof (add_local_spec locals name data g s Hkeyed Hok) as Hstep.
    pose proof (stable_fs P _ s (stable_add_local P locals g (name, data))) as Hfs.
    destruct (add_local P locals g (name, data) s) as [[e|g1] s1].
    { destruct Hstep as (He & d & Hd & Hl). split; [assumption|].
      exists name, d. split; [|assumption].
      apply elem_of_declared. exists data. split; [left|assumption]. }
    simpl in Hfs. destruct Hstep as (Hok1 & Hn1 & He1 & Hprov1).
    specialize (IH Hall g1 s1 Hok1).
    destruct (foldM _ todo g1 s1) as [[e|g'] s'].
    { destruct IH as (He & m & d & Hd & Hl). split; [assumption|].
      exists m, d. split; [|assumption].
      apply elem_of_declared in Hd as (data' & Hin & Hdd).
      apply elem_of_declared. exists data'. split; [right; assumption|assumption]. }
    destruct IH as (Hok' & Hn2 & He2 & Hprov2).
    change (obj_keys ((name, data) :: todo)) with (name :: obj_keys todo).
    change (declared ((name, data) :: todo))
      with (map (pair name) (deps_of data) ++ declared todo)%list.
    split; [assumption|]. split; [|split].
    + intros n. rewrite Hn2, Hn1, elem_of_cons. split.
      * intros [[H|[H|H]]|[H|(m & H)]]; auto.
        -- right. right. exists name. apply elem_of_app. left.
           apply list_elem_of_In, in_map, list_elem_of_In. assumption.
        -- right. right. exists m. apply elem_of_app. right. assumption.
      * intros [H|[[H|H]|(m & H)]]; auto.
        apply elem_of_app in H as [H|H].
        -- apply list_elem_of_In, in_map_iff in H as (d & [= <- <-] & H).
           apply list_elem_of_In in H. auto.
        -- right. right. eauto.
    + intros e. rewrite He2, He1, elem_of_app. split.
      * intros [[H|(d & H & ->)]|H]; auto.
        right. left. apply list_elem_of_In, in_map, list_elem_of_In. assumption.
      * intros [H|[H|H]]; auto.
        apply list_elem_of_In, in_map_iff in H as (d & <- & H).
        apply list_elem_of_In in H. left. right. eauto.
    + intros n H. destruct (Hprov2 n H) as [H'|[H'|[H'|H']]].
      * apply Hn1 in H' as [H'|[->|H']]; [auto|right; left; left|].
        destruct (Hprov1 n H') as [H''|[->|[H''|H'']]]; auto.
        right. left. left.
      * right. left. right. assumption.
      * auto.
      * rewrite Hfs in H'. auto.
Qed.

(** *** Reading the manifests *)

Lemma readJSONFile_eq filePath s :
  readJSONFile P filePath s =
  match fs s !! filePath with
  | Some text =>
      match JSON_parse P text with
      | Some v => (inr v, s)
      | None => (inl (CannotReadJSON filePath (SyntaxError text)), s)
      end
  | None => (inl (CannotReadJSON filePath (ENOENT filePath)), s)
  end.
Proof.
  unfold readJSONFile, try_catch, bind, readFileSync, JSON_parse_.
  destruct (fs s !! filePath) as [text|]; [|reflexivity].
  destruct (JSON_parse P text); reflexivity.
Qed.

Lemma readable_true files pkgPath :
  readable P files pkgPath = true <->
  exists text data, files !! path_join P pkgPath "package.json" = Some text /\
                    JSON_parse P text = Some data.
Proof.
  unfold readable. destruct (files !! path_join P pkgPath "package.json") as [text|].
  - rewrite bool_decide_eq_true. split.
    + intros [data H]. eauto.
    + intros (text' & data & [= <-] & H). eauto.
  - split; [discriminate|]. intros (text & data & H & _). discriminate.
Qed.

Lemma readable_readJSONFile s pkgPath :
  readable P (fs s) pkgPath = true <->
  exists data, readJSONFile P (path_join P pkgPath "package.json") s = (inr data, s).
Proof.
  rewrite readable_true, readJSONFile_eq.
  destruct (fs s !! path_join P pkgPath "package.json") as [text|].
  - destruct (JSON_parse P text) as [data|] eqn:E.
    + split; [intros _; exists data; reflexivity|].
      intros _. exists text, data. split; [reflexivity|assumption].
    + split; [intros (? & ? & [= <-] & ?); congruence|intros (? & ?); discriminate].
  - split; [intros (? & ? & ? & ?); discriminate|intros (? & ?); discriminate].
Qed.

(** One path: a readable manifest is stored under the key of its name, an
    unreadable one is reported on the console and changes nothing else. *)
Lemma gather_eq locals pkgPath s :
  gather P locals pkgPath s =
  match readJSONFile P (path_join P pkgPath "package.json") s with
  | (inr data, _) =>
      match prop data "name" with
      | inr name => (inr (obj_set (ToPropertyKey name) data locals), s)
      | inl e => (inl e, s)
      end
  | (inl e, _) => (inr locals, snd (console_error_ e s))
  end.
Proof.
  unfold gather, bind, try_catch. rewrite readJSONFile_eq.
  destruct (fs s !! path_join P pkgPath "package.json") as [text|]; [|reflexivity].
  destruct (JSON_parse P text) as [data|]; [|reflexivity].
  unfold ret, lift. destruct (prop data "name"); reflexivity.
Qed.

Lemma gather_unreadable locals pkgPath s :
  readable P (fs s) pkgPath = false ->
  exists cause,
    gather P locals pkgPath s =
    (inr locals,
     snd (console_error_ (CannotReadJSON (path_join P pkgPath "package.json") cause) s)).
Proof.
  intros H. rewrite gather_eq, readJSONFile_eq. unfold readable in H.
  destruct (fs s !! path_join P pkgPath "package.json") as [text|]; [|eauto].
  destruct (JSON_parse P text) as [data|] eqn:E; [|eauto].
  apply bool_decide_eq_false in H. exfalso. apply H. eauto.
Qed.



Lemma keyed_obj_set name data (locals : JSONObject) :
  keyed (name, data) -> Forall keyed locals -> Forall keyed (obj_set name data locals).
Proof.
  intros Hk Hall. apply Forall_forall. intros m Hm.
  apply elem_of_obj_set in Hm as [->|Hm]; [assumption|].
  rewrite Forall_forall in Hall. auto.
Qed.

(** What the gathering loop returns: members stored under the key of their
    name, one per key, and among them every readable manifest of [paths]. *)
Lemma gather_locals_spec paths :
  forall locals s locals' s',
  foldM (gather P) paths locals s = (inr locals', s') ->
  Forall keyed locals -> NoDup (obj_keys locals) ->
  Forall keyed locals' /\ NoDup (obj_keys locals') /\
  (forall k, k ∈ obj_keys locals -> k ∈ obj_keys locals') /\
  (forall p data, p ∈ paths ->
     readJSONFile P (path_join P p "package.json") s = (inr data, s) ->
     exists name, prop data "name" = inr name /\
                  ToPropertyKey name ∈ obj_keys locals') /\
  (forall p, p ∈ paths -> readable P (fs s) p = false ->
     exists cause,
       CannotReadJSON (path_join P p "package.json") cause ∈ console_error s').
Proof.
  induction paths as [|p paths IH]; intros locals s locals' s'; cbn [foldM].
  - intros [= <- <-] Hk Hn. split; [assumption|]. split; [assumption|].
    split; [auto|]. split; intros; exfalso; eapply not_elem_of_nil; eassumption.
  - unfold bind. intros Hrun Hk Hn.
    pose proof (gather_eq locals p s) as Hg.
    pose proof (stable_gather P locals p) as [Hext _]. specialize (Hext s).
    destruct (gather P locals p s) as [[e|l1] s1] eqn:Eg; [discriminate|].
    simpl in Hext.
    pose proof (stable_foldM P (gather P) paths (stable_gather P) l1) as [Hext2 _].
    specialize (Hext2 s1).
    assert (Hkeep : Forall keyed l1 /\ NoDup (obj_keys l1) /\
                    (forall k, k ∈ obj_keys locals -> k ∈ obj_keys l1) /\
                    (forall data, readJSONFile P (path_join P p "package.json") s = (inr data, s) ->
                       exists name, prop data "name" = inr name /\
                                    ToPropertyKey name ∈ obj_keys l1) /\
                    (readable P (fs s) p = false ->
                       exists cause, CannotReadJSON (path_join P p "package.json") cause
                                     ∈ console_error s1)).
    { destruct (readable P (fs s) p) eqn:Hr.
      - apply readable_readJSONFile in Hr as [data Hr]. rewrite Hr in Hg.
        destruct (prop data "name") as [e|name] eqn:En; [discriminate|].
        inversion Hg; subst l1 s1.
        split; [apply keyed_obj_set; [exists name; split; [exact En|reflexivity]|assumption]|].
        split; [apply obj_set_NoDup; assumption|].
        split; [intros k Hin; apply elem_of_obj_keys_set; auto|].
        split; [|discriminate].
        intros data' Hd. rewrite Hr in Hd. inversion Hd; subst data'.
        exists name. split; [assumption|].
        apply elem_of_obj_keys_set. auto.
      - destruct (gather_unreadable locals p s Hr) as [cause Hc].
        rewrite Eg in Hc. inversion Hc; subst l1 s1.
        split; [assumption|]. split; [assumption|]. split; [auto|]. split.
        + intros data Hd. assert (readable P (fs s) p = true) as Ht
            by (apply readable_readJSONFile; eauto). congruence.
        + intros _. exists cause. simpl. apply elem_of_app. right.
          apply list_elem_of_singleton. reflexivity. }
    destruct Hkeep as (Hk1 & Hn1 & Hsub1 & Hread1 & Hlog1).
    destruct (IH l1 s1 locals' s' Hrun Hk1 Hn1) as (Hk' & Hn' & Hsub' & Hread' & Hlog').
    rewrite Hrun in Hext2. simpl in Hext2.
    assert (fs s1 = fs s) as Hfs by (apply (extends_fs P), Hext).
    split; [assumption|]. split; [assumption|]. split; [auto|]. split.
    + intros q data Hq Hd. apply elem_of_cons in Hq as [->|Hq].
      * destruct (Hread1 data Hd) as (name & Hp & Hin). eauto.
      * apply (Hread' q data Hq).
        rewrite readJSONFile_eq in Hd |- *. rewrite Hfs.
        destruct (fs s !! path_join P q "package.json") as [text|]; [|discriminate].
        destruct (JSON_parse P text); [|discriminate].
        inversion Hd; subst. reflexivity.
    + intros q Hq Hr. apply elem_of_cons in Hq as [->|Hq].
      * destruct (Hlog1 Hr) as [cause Hc]. exists cause.
        destruct Hext2 as (_ & _ & _ & Hcon & _). auto.
      * apply Hlog'; [assumption|]. rewrite Hfs. assumption.
Qed.

End Builder.

(** ** The writers *)

Section Writers.

Context (P : Platform).

Lemma split_CRLF_no_CR s :
  (forall c, c ∈ list_ascii_of_string s -> c <> CR) -> split_CRLF s = [s].
Proof.
  induction s as [|c s IH]; intros H; [reflexivity|].
  assert (split_CRLF s = [s]) as Hs.
  { apply IH. intros c' Hc'. apply H. simpl. right. assumption. }
  assert (Ascii.eqb c CR = false) as Hc.
  { apply Ascii.eqb_neq. apply H. simpl. left. }
  simpl. rewrite Hs, Hc. simpl. destruct s; reflexivity.
Qed.

(** A text without carriage return is its own normal form. *)
Lemma join_split_no_CR s :
  (forall c, c ∈ list_ascii_of_string s -> c <> CR) -> join_LF (split_CRLF s) = s.
Proof. intros H. rewrite split_CRLF_no_CR by assumption. reflexivity. Qed.

Lemma split_CRLF_step c c' s :
  split_CRLF (String c (String c' s)) =
  if Ascii.eqb c CR && Ascii.eqb c' LF then "" :: split_CRLF s
  else match split_CRLF (String c' s) with
       | [] => [String c ""]
       | piece :: pieces => String c piece :: pieces
       end.
Proof. reflexivity. Qed.

Lemma split_CRLF_cons s : exists piece pieces, split_CRLF s = piece :: pieces.
Proof.
  destruct s as [|c [|c' s]]; [simpl; eauto..|].
  rewrite split_CRLF_step.
  destruct (Ascii.eqb c CR && Ascii.eqb c' LF); [eauto|].
  destruct (split_CRLF (String c' s)); eauto.
Qed.

Lemma join_LF_cons c piece pieces :
  join_LF (String c piece :: pieces) = String c (join_LF (piece :: pieces)).
Proof. destruct pieces; reflexivity. Qed.

(** Splitting at the CRLF pairs and joining with LF replaces each CRLF
    pair by LF, from the left. *)
Lemma join_split_CRLF s : join_LF (split_CRLF s) = CRLF_to_LF s.
Proof.
  assert (forall n s, (String.length s <= n)%nat -> join_LF (split_CRLF s) = CRLF_to_LF s)
    as Hlen; [|apply (Hlen (String.length s)); lia].
  clear s. induction n as [|n IH]; intros [|c s] Hs; try reflexivity.
  { simpl in Hs. lia. }
  destruct s as [|c' s]; [reflexivity|]. rewrite split_CRLF_step.
  change (CRLF_to_LF (String c (String c' s))) with
    (if Ascii.eqb c CR && Ascii.eqb c' LF then String LF (CRLF_to_LF s)
     else String c (CRLF_to_LF (String c' s))).
  destruct (Ascii.eqb c CR && Ascii.eqb c' LF).
  - rewrite <- (IH s) by (simpl in Hs; lia).
    destruct (split_CRLF_cons s) as (piece & pieces & ->). reflexivity.
  - rewrite <- (IH (String c' s)) by (simpl in Hs |- *; lia).
    destruct (split_CRLF_cons (String c' s)) as (piece & pieces & ->).
    apply join_LF_cons.
Qed.

(** C10: with the manifest file present, [writePackageData] calls
    [fs.writeFileSync] exactly when the sorted, pretty-printed data
    followed by a newline differ from the content of the file with every
    CRLF pair replaced by LF.  When they are the same it returns [false]
    and leaves the state, and so the file, as it is; when they differ, the
    write either fails, and its error is thrown with nothing changed, or
    puts the text in the file, and [true] is returned.  So the result is
    [true] exactly when a write occurred. *)
Theorem writePackageData_writes_iff_changed pkgJsonPath (data : JSONObject) s raw :
  fs s !! pkgJsonPath = Some raw ->
  let text := JSON_stringify P (sortPackageJson P (JObject data)) +:+ newline in
  let orig := CRLF_to_LF raw in
  (text = orig -> writePackageData P pkgJsonPath data s = (inr false, s)) /\
  (text <> orig ->
   writePackageData P pkgJsonPath data s =
   match write_error P (fs s) pkgJsonPath with
   | Some code => (inl (SystemError code pkgJsonPath), s)
   | None =>
       (inr true, mkState (<[pkgJsonPath := text]> (fs s)) (require_cache s)
                          (console_error s) (fs_writes s ++ [(pkgJsonPath, text)]))
   end) /\
  (forall changed s',
     writePackageData P pkgJsonPath data s = (inr changed, s') ->
     (changed = true <-> text <> orig) /\
     (changed = true ->
        fs_writes s' = (fs_writes s ++ [(pkgJsonPath, text)])%list /\
        fs s' = <[pkgJsonPath := text]> (fs s)) /\
     (changed = false -> s' = s)).
Proof.
  intros Hraw text orig.
  unfold writePackageData, bind, readFileSync, writeFileSync. rewrite Hraw.
  rewrite join_split_CRLF. fold text. fold orig.
  destruct (String.eqb_spec text orig) as [Heq|Hne]; cbn [negb].
  - split; [reflexivity|]. split; [contradiction|].
    intros changed s' [= <- <-].
    split; [split; [discriminate|contradiction]|]. split; [discriminate|reflexivity].
  - split; [contradiction|].
    destruct (write_error P (fs s) pkgJsonPath) as [code|]; (split; [reflexivity|]).
    + discriminate.
    + intros changed s' [= <- <-].
      split; [tauto|]. split; [|discriminate]. intros _. split; reflexivity.
Qed.

End Writers.

Lemma writePackageData_crlf_witness :
  writePackageData Examples.workspace "/repo/package.json" [("name", JString "b")]
    (initial_state [("/repo/package.json", Examples.crlf_text)])
  = (inr false, initial_state [("/repo/package.json", Examples.crlf_text)]) /\
  fst (writePackageData Examples.workspace "/repo/package.json" [("name", JString "c")]
         (initial_state [("/repo/package.json", Examples.crlf_text)]))
  = inr true.
Proof.
  split.
  - apply (writePackageData_writes_iff_changed Examples.workspace "/repo/package.json"
             [("name", JString "b")]
             (initial_state [("/repo/package.json", Examples.crlf_text)])
             Examples.crlf_text); vm_compute; reflexivity.
  - rewrite (proj1 (proj2 (writePackageData_writes_iff_changed Examples.workspace
               "/repo/package.json" [("name", JString "c")]
               (initial_state [("/repo/package.json", Examples.crlf_text)])
               Examples.crlf_text ltac:(vm_compute; reflexivity)))).
    + reflexivity.
    + vm_compute. discriminate.
Defined.

(** ** Induction on JSON values *)

Lemma JSON_induction (Q : JSON -> Prop) :
  Q JNull -> (forall b, Q (JBool b)) -> (forall n, Q (JNumber n)) ->
  (forall s, Q (JString s)) ->
  (forall l, Forall Q l -> Q (JArray l)) ->
  (forall o, Forall (fun kv : string * JSON => Q (snd kv)) o -> Q (JObject o)) ->
  forall v, Q v.
Proof.
  intros Hnull Hbool Hnum Hstr Harr Hobj.
  fix IH 1. intros [ | b | n | s | l | o ].
  - exact Hnull.
  - apply Hbool.
  - apply Hnum.
  - apply Hstr.
  - apply Harr. induction l as [|v l IHl]; constructor; [apply IH|exact IHl].
  - apply Hobj. induction o as [|[k v] o IHo]; constructor; [apply IH|exact IHo].
Qed.

Lemma sequence_inr {A : Type} (l : list (exn + A)) :
  Forall (fun r => exists a, r = inr a) l -> exists l', sequence l = inr l'.
Proof.
  induction 1 as [|r l [a ->] _ [l' IH]]; simpl; [eauto|].
  rewrite IH. eauto.
Qed.

(** The key-sorting pass of [writeJSONFile] throws only on a [null]. *)
Lemma sortObjByKey_inr v :
  has_null v = false -> exists sorted, sortObjByKey v = inr sorted.
Proof.
  induction v as [ | b | n | s | l IH | o IH ] using JSON_induction;
    simpl; intros Hnull; try discriminate; eauto.
  - destruct (sequence_inr (map sortObjByKey l)) as [l' ->]; [|eauto].
    induction IH as [|v l Hv _ IHl]; simpl in *; constructor.
    + apply Hv. apply orb_false_iff in Hnull. tauto.
    + apply IHl. apply orb_false_iff in Hnull. tauto.
  - match goal with |- context [sequence ?rs] =>
      destruct (sequence_inr rs) as [o' ->]; [|eauto] end.
    induction IH as [|[k v] o Hv _ IHo]; simpl in *; constructor.
    + apply orb_false_iff in Hnull as [Hnull _].
      destruct (Hv Hnull) as [v' ->]. eauto.
    + apply IHo. apply orb_false_iff in Hnull. tauto.
Qed.

(** ** Discovery of the package paths *)

Section Discovery.

Context (P : Platform).

Lemma require_unresolved request s :
  require_resolve P (fs s) None request = None ->
  require P request s = (inl (MODULE_NOT_FOUND request), s).
Proof. intros H. unfold require, bind, require_resolve_. rewrite H. reflexivity. Qed.

(** C5: when the manifest of the base directory cannot be found, or is
    found and its [workspaces] is absent or falsy, and no [lerna.json] can
    be found, [getLernaPaths] throws the error "No yarn workspace / lerna
    package list found", and nothing else. *)
Theorem getLernaPaths_ConfigurationError basePath s :
  let base := path_resolve P basePath in
  (require_resolve P (fs s) None (path_join P base "package.json") = None \/
   exists baseConfig s1 workspaces,
     require P (path_join P base "package.json") s = (inr baseConfig, s1) /\
     prop baseConfig "workspaces" = inr workspaces /\
     truthy workspaces = false) ->
  require_resolve P (fs s) None (path_join P base "lerna.json") = None ->
  exists s',
    getLernaPaths P basePath s =
    (inl (JsError ("No yarn workspace / lerna package list found in " +:+ base)), s').
Proof.
  intros base Hmanifest Hlerna. unfold getLernaPaths. fold base.
  unfold bind at 1, try_catch.
  destruct Hmanifest as [Hnone|(baseConfig & s1 & workspaces & Hreq & Hprop & Hfalsy)].
  - unfold bind at 1. rewrite (require_unresolved _ _ Hnone). simpl. eauto.
  - unfold bind at 1. rewrite Hreq.
    unfold bind at 1, lift at 1. rewrite Hprop.
    assert (fs s1 = fs s) as Hfs.
    { pose proof (stable_fs P _ s (stable_require P (path_join P base "package.json"))) as H.
      rewrite Hreq in H. exact H. }
    assert (require P (path_join P base "lerna.json") s1
            = (inl (MODULE_NOT_FOUND (path_join P base "lerna.json")), s1)) as Hl.
    { apply require_unresolved. rewrite Hfs. assumption. }
    destruct workspaces as [ws|].
    + rewrite Hfalsy. unfold bind at 1. rewrite Hl. simpl. eauto.
    + unfold bind at 1. rewrite Hl. simpl. eauto.
Qed.

Lemma glob_loop base (globs : list string) :
  forall paths s,
  foldM (fun paths config =>
           let* pattern := path_join_ P base config in
           fun s => (inr (paths ++ glob_sync P (fs s) pattern)%list, s))
        (map JString globs) paths s
  = (inr (paths ++ List.concat (map (fun g => glob_sync P (fs s) (path_join P base g)) globs))%list, s).
Proof.
  induction globs as [|g globs IH]; intros paths s; simpl.
  - rewrite app_nil_r. reflexivity.
  - unfold bind at 1. simpl. unfold bind at 1, ret. rewrite IH, <- app_assoc. reflexivity.
Qed.

(** C6: when the manifest of the base directory declares the globs
    [globs], as the array [workspaces] or as [workspaces.packages],
    [getLernaPaths] returns the matches of the globs, glob after glob and
    in the order [glob] gives them, without those that hold no
    [package.json]: a path is returned exactly when a glob matches it and it
    holds a manifest, as often as the globs match it. *)
Theorem getLernaPaths_workspaces basePath s baseConfig s1 workspaces (globs : list string) :
  let base := path_resolve P basePath in
  let has_manifest := fun pkgPath => existsSync (fs s) (path_join P pkgPath "package.json") in
  let matched := List.concat (map (fun g => glob_sync P (fs s) (path_join P base g)) globs) in
  require P (path_join P base "package.json") s = (inr baseConfig, s1) ->
  prop baseConfig "workspaces" = inr (Some workspaces) ->
  (workspaces = JArray (map JString globs) \/
   exists o, workspaces = JObject o /\
             obj_get "packages" o = Some (JArray (map JString globs))) ->
  getLernaPaths P basePath s = (inr (List.filter has_manifest matched), s1) /\
  (forall pkgPath,
     pkgPath ∈ List.filter has_manifest matched <->
     (exists g, g ∈ globs /\ pkgPath ∈ glob_sync P (fs s) (path_join P base g)) /\
     has_manifest pkgPath = true) /\
  (forall pkgPath,
     count_occ string_dec (List.filter has_manifest matched) pkgPath =
     if has_manifest pkgPath then count_occ string_dec matched pkgPath else 0%nat).
Proof.
  intros base has_manifest matched Hreq Hprop Hws.
  assert (fs s1 = fs s) as Hfs.
  { pose proof (stable_fs P _ s (stable_require P (path_join P base "package.json"))) as H.
    rewrite Hreq in H. exact H. }
  split; [|split].
  - unfold getLernaPaths. fold base.
    unfold bind at 1, try_catch. unfold bind at 1. rewrite Hreq.
    unfold bind at 1, lift at 1. rewrite Hprop.
    assert (exists packages,
              (if truthy (Some workspaces)
               then let* ws_packages := lift (prop workspaces "packages") in
                    ret (if truthy ws_packages then ws_packages else Some workspaces)
               else let* baseConfig0 := require P (path_join P base "lerna.json") in
                    lift (prop baseConfig0 "packages")) s1 = (inr packages, s1) /\
              iterate packages = inr (map JString globs)) as (packages & -> & Hit).
    { destruct Hws as [->|(o & -> & Ho)]; simpl.
      - eexists. split; [reflexivity|reflexivity].
      - unfold bind, lift, ret. simpl. rewrite Ho. simpl.
        eexists. split; [reflexivity|reflexivity]. }
    unfold bind at 1, lift at 1. rewrite Hit.
    unfold bind at 1. rewrite glob_loop. simpl. rewrite Hfs. reflexivity.
  - intros pkgPath. rewrite list_elem_of_In, filter_In. unfold matched.
    rewrite in_concat. split.
    + intros [(l & Hl & Hin) Hm]. split; [|assumption].
      apply in_map_iff in Hl as (g & <- & Hg). exists g.
      rewrite !list_elem_of_In. auto.
    + intros [(g & Hg & Hin) Hm]. split; [|assumption].
      exists (glob_sync P (fs s) (path_join P base g)).
      rewrite list_elem_of_In in Hg, Hin. split; [|assumption].
      apply in_map_iff. eauto.
  - intros pkgPath. induction matched as [|q l IH]; simpl.
    + destruct (has_manifest pkgPath); reflexivity.
    + destruct (has_manifest q) eqn:Hq; simpl.
      * destruct (string_dec q pkgPath) as [->|Hne].
        -- rewrite IH, Hq. reflexivity.
        -- rewrite IH. reflexivity.
      * destruct (string_dec q pkgPath) as [->|Hne].
        -- rewrite IH, Hq. reflexivity.
        -- rewrite IH. reflexivity.
Qed.

End Discovery.

Lemma getLernaPaths_ConfigurationError_witness :
  exists s',
    getLernaPaths Examples.workspace "." (initial_state Examples.plain_files) =
    (inl (JsError ("No yarn workspace / lerna package list found in "
                   +:+ path_resolve Examples.workspace ".")), s').
Proof.
  apply (getLernaPaths_ConfigurationError Examples.workspace "."
           (initial_state Examples.plain_files)).
  - right.
    exists Examples.b_manifest,
           (snd (require Examples.workspace "/repo/package.json"
                   (initial_state Examples.plain_files))),
           None.
    split; [vm_compute; reflexivity|]. split; reflexivity.
  - vm_compute. reflexivity.
Defined.

Lemma getLernaPaths_workspaces_witness :
  getLernaPaths Examples.workspace "." Examples.workspace_state =
  (inr Examples.workspace_paths,
   snd (require Examples.workspace "/repo/package.json" Examples.workspace_state)) /\
  count_occ string_dec Examples.workspace_paths "/repo/packages/a" = 2%nat /\
  "/repo/packages/d" ∉ Examples.workspace_paths.
Proof.
  destruct (getLernaPaths_workspaces Examples.workspace "." Examples.workspace_state
              Examples.root_manifest
              (snd (require Examples.workspace "/repo/package.json" Examples.workspace_state))
              (JArray [JString "packages/*"; JString "packages/a"])
              ["packages/*"; "packages/a"]) as (Hrun & Hin & Hcount).
  - vm_compute. reflexivity.
  - reflexivity.
  - left. reflexivity.
  - split; [rewrite Hrun; vm_compute; reflexivity|].
    split; [vm_compute; reflexivity|].
    intros H. vm_compute in H. 
    repeat (apply elem_of_cons in H as [H|H]; [discriminate|]).
    inversion H.
Defined.

(** ** The package graph *)

Section Graph.

Context (P : Platform).


Lemma gather_locals_keyed paths s locals s' :
  gather_locals P paths s = (inr locals, s') ->
  Forall keyed locals /\ NoDup (obj_keys locals) /\ fs s' = fs s.
Proof.
  intros H.
  destruct (gather_locals_spec P paths [] s locals s' H) as (Hk & Hn & _);
    [constructor|apply NoDup_nil_2|].
  split; [assumption|]. split; [assumption|].
  pose proof (stable_fs P _ s (stable_gather_locals P paths)) as Hfs.
  rewrite H in Hfs. exact Hfs.
Qed.






End Graph.



Section Construction.

Context (P : Platform).



Lemma payload_ok_addNode locals d (depData : Payload) g :
  (forall l, obj_get d locals = Some l -> depData = Manifest l) ->
  payload_ok locals g -> payload_ok locals (addNode d depData g).
Proof.
  intros Hd Hok n v l Hv Hl. unfold addNode in Hv; simpl in Hv.
  destruct (decide (n = d)) as [->|Hne].
  - rewrite obj_get_set_eq in Hv. injection Hv as <-. apply Hd. exact Hl.
  - rewrite obj_get_set_ne in Hv by assumption. eapply Hok; eassumption.
Qed.

Lemma add_dep_payload locals name data g d s g' s' :
  add_dep P locals name data g d s = (inr g', s') ->
  payload_ok locals g -> payload_ok locals g'.
Proof.
  unfold add_dep, bind, ret, lift. intros Hrun Hok.
  assert (forall g1, match prop data "name" with
                     | inl e => inl e
                     | inr from => addDependency (ToPropertyKey from) d g1
                     end = inr g' -> nodes g' = nodes g1) as Hedge.
  { intros g1 H. destruct (prop data "name"); [discriminate|].
    apply addDependency_inr in H. tauto. }
  destruct (hasNode g d).
  - destruct (prop data "name") as [e|from] eqn:Hp; [discriminate|].
    inversion Hrun as [[Hadd Hs]]. apply addDependency_inr in Hadd.
    destruct Hadd as (_ & _ & Hnodes & _).
    intros n v l. rewrite Hnodes. apply Hok.
  - destruct (has_property d locals) eqn:Hl.
    + destruct (prop data "name") as [e|from] eqn:Hp; [discriminate|].
      inversion Hrun as [[Hadd Hs]]. apply addDependency_inr in Hadd.
      destruct Hadd as (_ & _ & Hnodes & _).
      intros n v l. rewrite Hnodes.
      apply (payload_ok_addNode locals d (get_property d locals) g); [|assumption].
      intros l' Hl'. unfold get_property. rewrite Hl'. reflexivity.
    + destruct (requirePackage P name d s) as [[e|depData] s1]; [discriminate|].
      destruct (prop data "name") as [e|from] eqn:Hp; [discriminate|].
      inversion Hrun as [[Hadd Hs]]. apply addDependency_inr in Hadd.
      destruct Hadd as (_ & _ & Hnodes & _).
      intros n v l. rewrite Hnodes.
      apply (payload_ok_addNode locals d (Manifest depData) g); [|assumption].
      intros l' Hl'. apply orb_false_iff in Hl as [Hl _].
      apply bool_decide_eq_false in Hl. exfalso. apply Hl.
      eapply obj_get_Some. exact Hl'.
Qed.

Lemma add_deps_payload locals name data ds :
  forall g s g' s',
  foldM (add_dep P locals name data) ds g s = (inr g', s') ->
  payload_ok locals g -> payload_ok locals g'.
Proof.
  induction ds as [|d ds IH]; intros g s g' s'; simpl.
  - intros [= <- <-]. auto.
  - unfold bind. destruct (add_dep P locals name data g d s) as [[e|g1] s1] eqn:E;
      [discriminate|].
    intros Hrun Hok. eapply IH; [eassumption|]. eapply add_dep_payload; eassumption.
Qed.

(** The nodes of local packages carry the manifests of [locals] all along,
    so that a name is only ever re-added with the payload its node has. *)
Lemma add_locals_payload locals (todo : JSONObject) :
  NoDup (obj_keys locals) -> (forall m, m ∈ todo -> m ∈ locals) ->
  forall g s g' s',
  foldM (add_local P locals) todo g s = (inr g', s') ->
  payload_ok locals g -> payload_ok locals g'.
Proof.
  intros Hnodup. induction todo as [|[name data] todo IH]; intros Hsub g s g' s';
    cbn [foldM].
  - intros [= <- <-]. auto.
  - unfold bind.
    destruct (add_local P locals g (name, data) s) as [[e|g1] s1] eqn:E; [discriminate|].
    intros Hrun Hok.
    apply (IH (fun m Hm => Hsub m (list_elem_of_further _ _ _ Hm)) g1 s1 g' s' Hrun).
    unfold add_local, bind, lift in E.
    destruct (dependencies data) as [e|deps]; [discriminate|].
    eapply add_deps_payload; [eassumption|].
    apply payload_ok_addNode; [|assumption].
    intros l Hl. rewrite (obj_get_NoDup name locals data Hnodup) in Hl.
    + congruence.
    + apply Hsub. left.
Qed.

(** C8: in the container, adding a node keeps one node per name, and
    re-adding a name replaces its payload and adds no node; an edge is added
    only between nodes the graph already has, and changes no node.  In
    [getPackageGraph], after any number of local packages the loop over the
    gathered packages has not been refused an edge by the container, its
    graph has one node per name and edges between its nodes only, and the
    node of a local package carries its manifest, which is therefore the
    payload a re-added name already has. *)
Theorem graph_invariant :
  (forall g name data,
     NoDup (obj_keys (nodes g)) ->
     NoDup (obj_keys (nodes (addNode name data g))) /\
     obj_get name (nodes (addNode name data g)) = Some data /\
     (hasNode g name = true ->
      obj_keys (nodes (addNode name data g)) = obj_keys (nodes g))) /\
  (forall g from to g',
     addDependency from to g = inr g' ->
     hasNode g from = true /\ hasNode g to = true /\ nodes g' = nodes g) /\
  (forall paths s locals s' todo,
     gather_locals P paths s = (inr locals, s') ->
     todo `prefix_of` locals ->
     match foldM (add_local P locals) todo empty_graph s' with
     | (inl e, _) => forall name, e <> NodeDoesNotExist name
     | (inr g, _) =>
         graph_ok g /\ payload_ok locals g /\
         (forall name data, obj_get name (nodes g) = Some data ->
                            addNode name data g = g)
     end).
Proof.
  split; [|split].
  - intros g name data Hn. split; [apply obj_set_NoDup; assumption|].
    split; [apply obj_get_set_eq|].
    intros H. apply hasNode_true in H. apply obj_keys_set_in. assumption.
  - intros g from to g' H.
    destruct (addDependency_inr _ _ _ _ H) as (Hf & Ht & Hnodes & _).
    rewrite !hasNode_true. auto.
  - intros paths s locals s' todo Hg [rest ->].
    destruct (gather_locals_keyed _ _ _ _ _ Hg) as (Hkeyed & Hnodup & _).
    apply Forall_app in Hkeyed as [Hkeyed _].
    pose proof (add_locals_spec P (todo ++ rest) todo Hkeyed empty_graph s' graph_ok_empty)
      as Hspec.
    pose proof (add_locals_payload (todo ++ rest) todo Hnodup
                  (fun m Hm => proj2 (elem_of_app _ _ _) (or_introl Hm))
                  empty_graph s') as Hpay.
    destruct (foldM _ todo empty_graph s') as [[e|g] s3].
    + destruct Hspec as [He _]. intros name ->. exact He.
    + split; [apply Hspec|]. split.
      * eapply Hpay; [reflexivity|]. intros n v l H. inversion H.
      * intros name data H. destruct g as [ns es]. unfold addNode; simpl in *.
        rewrite obj_set_same by assumption. reflexivity.
Qed.


(** In any later state, whatever was required or printed in between,
    [getPackageGraph] gives the result it gave. *)
Lemma getPackageGraph_later s s2 :
  extends P (snd (getPackageGraph P s)) s2 ->
  fst (getPackageGraph P s2) = fst (getPackageGraph P s).
Proof.
  intros H. destruct (stable_getPackageGraph P) as [H1 H2].
  apply H2. eapply extends_trans; [apply H1|exact H].
Qed.

(** C7: run again in the state it left, [getPackageGraph] gives the same
    result, the same graph or the same error; it changes no file and writes
    none. *)
Theorem getPackageGraph_idempotent s :
  fst (getPackageGraph P (snd (getPackageGraph P s))) = fst (getPackageGraph P s) /\
  fs (snd (getPackageGraph P s)) = fs s /\
  fs_writes (snd (getPackageGraph P s)) = fs_writes s.
Proof.
  split; [apply (stable_replay P), stable_getPackageGraph|].
  destruct (stable_getPackageGraph P) as [H _].
  destruct (H s) as (Hfs & _ & _ & _ & Hw). auto.
Qed.

End Construction.


(** C2: a dependency named [constructor] that is no local package and
    whose manifest can be located nowhere does not make [getPackageGraph]
    fail: [depName in locals] is true of a name that [locals] inherits, so
    the graph is returned, with the inherited value as the payload of the
    node. *)
Lemma getPackageGraph_inherited_dependency :
  fst (gather_locals Examples.broken
         ["/repo/packages/a"; mock_extension; mock_mimeextension]
         (initial_state MoreExamples.inherited_files))
  = inr [("a", MoreExamples.inherited_a)] /\
  deps_of MoreExamples.inherited_a = ["constructor"] /\
  obj_get "constructor" [("a", MoreExamples.inherited_a)] = None /\
  ~ resolvable Examples.broken (fs (initial_state MoreExamples.inherited_files))
      "constructor" /\
  fst (getPackageGraph Examples.broken (initial_state MoreExamples.inherited_files))
  = inr (mkGraph [("a", Manifest MoreExamples.inherited_a);
                  ("constructor", Inherited "constructor")]
                 [("a", "constructor")]).
Proof.
  split; [vm_compute; reflexivity|]. split; [reflexivity|]. split; [reflexivity|].
  split; [|vm_compute; reflexivity].
  intros (paths & filename & H). vm_compute in H. discriminate.
Qed.


Lemma graph_invariant_witness :
  match foldM (add_local Examples.workspace Examples.workspace_locals)
          Examples.workspace_locals empty_graph
          (snd (gather_locals Examples.workspace Examples.workspace_paths
                  Examples.workspace_state)) with
  | (inl e, _) => forall name, e <> NodeDoesNotExist name
  | (inr g, _) =>
      graph_ok g /\ payload_ok Examples.workspace_locals g /\
      (forall name data, obj_get name (nodes g) = Some data -> addNode name data g = g)
  end.
Proof.
  apply (proj2 (proj2 (graph_invariant Examples.workspace))
           Examples.workspace_paths Examples.workspace_state
           Examples.workspace_locals
           (snd (gather_locals Examples.workspace Examples.workspace_paths
                   Examples.workspace_state))
           Examples.workspace_locals).
  - vm_compute. reflexivity.
  - exists []. reflexivity.
Defined.



(** ** Splitting and joining *)

Section Strings.

Implicit Types (s sep pre post rest : string) (c a : ascii).

Lemma append_cons c s1 s2 : String c s1 +:+ s2 = String c (s1 +:+ s2).
Proof. reflexivity. Qed.

Lemma append_nil_l s : "" +:+ s = s.
Proof. reflexivity. Qed.

Lemma append_nil_r s : s +:+ "" = s.
Proof.
  induction s as [|c s IH]; [reflexivity|]. rewrite append_cons, IH. reflexivity.
Qed.

Lemma append_assoc s1 s2 s3 : (s1 +:+ s2) +:+ s3 = s1 +:+ s2 +:+ s3.
Proof.
  induction s1 as [|c s1 IH]; [reflexivity|]. rewrite !append_cons, IH. reflexivity.
Qed.

Lemma length_append s1 s2 :
  String.length (s1 +:+ s2) = (String.length s1 + String.length s2)%nat.
Proof.
  induction s1 as [|c s1 IH]; [reflexivity|]. rewrite append_cons. simpl.
  rewrite IH. reflexivity.
Qed.

Lemma all_chars_append f s1 s2 :
  all_chars f (s1 +:+ s2) = all_chars f s1 && all_chars f s2.
Proof.
  induction s1 as [|c s1 IH]; [reflexivity|]. rewrite append_cons. simpl.
  rewrite IH, andb_assoc. reflexivity.
Qed.

Lemma strip_prefix_Some p s rest : strip_prefix p s = Some rest <-> s = p +:+ rest.
Proof.
  revert s. induction p as [|a p IH]; intros s; simpl.
  - split; [intros [= ->]; reflexivity|intros ->; reflexivity].
  - destruct s as [|b s]; [split; discriminate|].
    destruct (Ascii.eqb_spec a b) as [->|Hne].
    + rewrite IH. rewrite append_cons.
      split; [intros ->; reflexivity|intros [= ->]; reflexivity].
    + split; [discriminate|]. rewrite append_cons. intros [= <- _]. contradiction.
Qed.

Lemma split_fuel_nonempty fuel sep s : split_fuel fuel sep s <> [].
Proof.
  destruct fuel as [|fuel]; simpl; [discriminate|].
  destruct (strip_prefix sep s); [discriminate|].
  destruct s as [|c s]; [discriminate|].
  destruct (split_fuel fuel sep s); discriminate.
Qed.

Lemma join_cons_head sep c piece pieces :
  join sep (String c piece :: pieces) = String c (join sep (piece :: pieces)).
Proof. destruct pieces; reflexivity. Qed.

Lemma join_cons_empty sep pieces :
  pieces <> [] -> join sep ("" :: pieces) = sep +:+ join sep pieces.
Proof. destruct pieces; [contradiction|reflexivity]. Qed.

Lemma join_cons sep piece pieces :
  pieces <> [] -> join sep (piece :: pieces) = piece +:+ sep +:+ join sep pieces.
Proof. destruct pieces; [contradiction|reflexivity]. Qed.

Lemma split_fuel_join sep :
  sep <> "" ->
  forall fuel s, (String.length s < fuel)%nat -> join sep (split_fuel fuel sep s) = s.
Proof.
  intros Hsep. induction fuel as [|fuel IH]; intros s Hlen; [lia|].
  simpl. destruct (strip_prefix sep s) as [rest|] eqn:Hp.
  - apply strip_prefix_Some in Hp. subst s.
    rewrite join_cons_empty by apply split_fuel_nonempty.
    rewrite IH; [reflexivity|].
    rewrite length_append in Hlen. destruct sep; [contradiction|simpl in Hlen; lia].
  - destruct s as [|c s]; [reflexivity|].
    specialize (IH s ltac:(simpl in Hlen; lia)).
    destruct (split_fuel fuel sep s) as [|piece pieces] eqn:E.
    + exfalso. eapply split_fuel_nonempty. eassumption.
    + rewrite join_cons_head, IH. reflexivity.
Qed.

(** Joining the pieces with the separator gives the string back. *)
Lemma join_split sep s : sep <> "" -> join sep (split sep s) = s.
Proof. intros H. apply split_fuel_join; [assumption|lia]. Qed.

Lemma split_fuel_enough sep :
  sep <> "" ->
  forall f1 f2 s, (String.length s < f1)%nat -> (String.length s < f2)%nat ->
  split_fuel f1 sep s = split_fuel f2 sep s.
Proof.
  intros Hsep. induction f1 as [|f1 IH]; intros f2 s H1 H2; [lia|].
  destruct f2 as [|f2]; [lia|]. simpl.
  destruct (strip_prefix sep s) as [rest|] eqn:Hp.
  - apply strip_prefix_Some in Hp. subst s. f_equal. apply IH.
    + rewrite length_append in H1. destruct sep; [contradiction|simpl in H1; lia].
    + rewrite length_append in H2. destruct sep; [contradiction|simpl in H2; lia].
  - destruct s as [|c s]; [reflexivity|].
    rewrite (IH f2 s); [reflexivity|simpl in H1; lia|simpl in H2; lia].
Qed.

Lemma split_fuel_absent sep s :
  ~ occurs sep s -> forall fuel, split_fuel fuel sep s = [s].
Proof.
  intros Habs fuel. revert s Habs.
  induction fuel as [|fuel IH]; intros s Habs; [reflexivity|]. simpl.
  destruct (strip_prefix sep s) as [rest|] eqn:Hp.
  - exfalso. apply Habs. apply strip_prefix_Some in Hp. exists "", rest. exact Hp.
  - destruct s as [|c s]; [reflexivity|].
    rewrite IH; [reflexivity|].
    intros (pre & post & ->). apply Habs. exists (String c pre), post. reflexivity.
Qed.

(** A string without the separator is its own single piece. *)
Lemma split_absent sep s : ~ occurs sep s -> split sep s = [s].
Proof. intros H. apply split_fuel_absent. assumption. Qed.

Lemma all_chars_not_occurs a sep' s :
  all_chars (is_not a) s = true -> ~ occurs (String a sep') s.
Proof.
  intros Hall (pre & post & ->).
  rewrite all_chars_append in Hall. apply andb_true_iff in Hall as [_ Hall].
  rewrite append_cons in Hall. simpl in Hall. unfold is_not in Hall.
  rewrite Ascii.eqb_refl in Hall. discriminate.
Qed.

Lemma split_fuel_strip fuel sep s rest :
  strip_prefix sep s = Some rest ->
  split_fuel (S fuel) sep s = "" :: split_fuel fuel sep rest.
Proof. intros H. simpl. rewrite H. reflexivity. Qed.

Lemma split_fuel_keep fuel sep c s :
  strip_prefix sep (String c s) = None ->
  split_fuel (S fuel) sep (String c s)
  = match split_fuel fuel sep s with
    | piece :: pieces => String c piece :: pieces
    | [] => [String c ""]
    end.
Proof. intros H. simpl in *. rewrite H. reflexivity. Qed.

(** The first piece ends at the first occurrence of the separator. *)
Lemma split_first a sep' pre rest :
  all_chars (is_not a) pre = true ->
  split (String a sep') (pre +:+ String a sep' +:+ rest)
  = pre :: split (String a sep') rest.
Proof.
  intros Hpre. unfold split. induction pre as [|c pre IH].
  - rewrite append_nil_l.
    rewrite (split_fuel_strip _ _ _ rest) by (apply strip_prefix_Some; reflexivity).
    f_equal. apply split_fuel_enough; [discriminate| |lia].
    rewrite length_append. simpl. lia.
  - simpl in Hpre. apply andb_true_iff in Hpre as [Hc Hpre].
    specialize (IH Hpre). rewrite append_cons.
    change (String.length (String c (pre +:+ String a sep' +:+ rest)))
      with (S (String.length (pre +:+ String a sep' +:+ rest))).
    rewrite split_fuel_keep.
    + rewrite IH. reflexivity.
    + simpl. unfold is_not in Hc. apply negb_true_iff in Hc.
      rewrite Ascii.eqb_sym, Hc. reflexivity.
Qed.

End Strings.

(** ** [fromTemplate] *)

Section Template.

Implicit Types (templ key val pre post : string).

Lemma placeholder_eq key :
  "{{" +:+ key +:+ "}}" = String "{" (String "{" (key +:+ "}}")).
Proof. reflexivity. Qed.

Lemma split_newline_free val :
  all_chars (is_not LF) val = true -> split newline val = [val].
Proof. intros H. apply split_absent. apply all_chars_not_occurs. assumption. Qed.

Lemma join_fold val pieces :
  forall first,
  fold_left (fun acc cur => acc +:+ val +:+ cur) pieces first = join val (first :: pieces).
Proof.
  induction pieces as [|piece pieces IH]; intros first; [reflexivity|].
  cbn [fold_left]. rewrite IH.
  destruct pieces as [|piece' pieces].
  - reflexivity.
  - rewrite (join_cons val first) by discriminate.
    rewrite (join_cons val (first +:+ val +:+ piece)) by discriminate.
    rewrite (join_cons val piece) by discriminate.
    rewrite !append_assoc. reflexivity.
Qed.

(** A value without newline is inserted the same way with and without
    [autoindent]. *)
Lemma substitute_newline_free templ key val :
  all_chars (is_not LF) val = true ->
  substitute true templ key val = substitute false templ key val.
Proof.
  intros Hval. unfold substitute. rewrite (split_newline_free _ Hval).
  destruct (split ("{{" +:+ key +:+ "}}") templ) as [|first rest] eqn:E.
  - exfalso. eapply split_fuel_nonempty. exact E.
  - rewrite <- join_fold. reflexivity.
Qed.

(** X1: When no value holds a newline, [fromTemplate] gives the same text with
    [autoindent] on, off or left to its default. *)
Theorem fromTemplate_autoindent_single_line templ (subs : list (string * string))
    (option_autoindent : option bool) (option_end : option string) :
  Forall (fun sub : string * string => all_chars (is_not LF) (snd sub) = true) subs ->
  fromTemplate templ subs (mkTemplateOptions option_autoindent option_end)
  = fromTemplate templ subs (mkTemplateOptions (Some false) option_end).
Proof.
  intros Hsubs. unfold fromTemplate. cbn [autoindent end_]. f_equal. f_equal.
  revert templ. induction Hsubs as [|[key val] subs Hval _ IH]; intros templ;
    [reflexivity|].
  cbn [fold_left fst snd] in *. rewrite <- IH.
  destruct option_autoindent as [[]|];
    [rewrite substitute_newline_free by assumption; reflexivity
    |reflexivity
    |rewrite substitute_newline_free by assumption; reflexivity].
Qed.

Lemma substitute_absent autoindent templ key val :
  ~ occurs ("{{" +:+ key +:+ "}}") templ -> substitute autoindent templ key val = templ.
Proof.
  intros H. unfold substitute. rewrite (split_absent _ _ H).
  destruct autoindent; reflexivity.
Qed.

(** X2: Substitutions whose placeholder does not occur in the template change
    nothing: the result is the trimmed template followed by the end
    marker. *)
Theorem fromTemplate_unused_keys templ (subs : list (string * string)) options :
  Forall (fun sub : string * string => ~ occurs ("{{" +:+ fst sub +:+ "}}") templ) subs ->
  fromTemplate templ subs options
  = trim templ +:+ match end_ options with None => newline | Some e => e end.
Proof.
  intros Hsubs. unfold fromTemplate. f_equal. f_equal.
  induction Hsubs as [|[key val] subs Hkey _ IH]; [reflexivity|].
  cbn [fold_left fst snd] in *. rewrite substitute_absent by assumption. exact IH.
Qed.

Lemma isBlank_not_terminator c : isBlank c = true -> isLineTerminator c = false.
Proof. unfold isBlank. intros H. apply andb_true_iff in H as [_ H]. apply negb_true_iff, H. Qed.

Lemma no_terminator_append s1 s2 :
  no_terminator (s1 +:+ s2) = no_terminator s1 && no_terminator s2.
Proof.
  induction s1 as [|c s1 IH]; [reflexivity|]. rewrite append_cons. simpl.
  rewrite IH, andb_assoc. reflexivity.
Qed.

Lemma indentRe_no_terminator s : no_terminator s = true -> indentRe s = blank_prefix s.
Proof. destruct s as [|c s]; [reflexivity|]. intros H. cbn [indentRe]. rewrite H. reflexivity. Qed.

Lemma blank_prefix_append blanks text :
  all_chars isBlank blanks = true -> blank_prefix text = "" ->
  blank_prefix (blanks +:+ text) = blanks.
Proof.
  intros Hb Ht. induction blanks as [|c blanks IH]; [exact Ht|].
  simpl in Hb. apply andb_true_iff in Hb as [Hc Hb].
  rewrite append_cons. cbn [blank_prefix]. unfold isBlank in Hc. rewrite Hc.
  rewrite IH by assumption. reflexivity.
Qed.

Lemma all_blank_no_terminator blanks :
  all_chars isBlank blanks = true -> no_terminator blanks = true.
Proof.
  induction blanks as [|c blanks IH]; [reflexivity|]. simpl.
  intros H. apply andb_true_iff in H as [Hc Hb].
  rewrite (isBlank_not_terminator _ Hc), IH by assumption. reflexivity.
Qed.

(** The indentation found at the end of a text is the white space at the
    head of its last line. *)
Lemma indentRe_last_line before blanks text :
  all_chars isBlank blanks = true -> blank_prefix text = "" ->
  no_terminator text = true ->
  indentRe (before +:+ newline +:+ blanks +:+ text) = blanks.
Proof.
  intros Hb Ht Hn.
  assert (no_terminator (blanks +:+ text) = true) as Hline.
  { rewrite no_terminator_append, Hn, all_blank_no_terminator by assumption. reflexivity. }
  assert (indentRe (newline +:+ blanks +:+ text) = blanks) as Hbase.
  { unfold newline. rewrite append_cons, append_nil_l. cbn [indentRe no_terminator].
    replace (isLineTerminator LF) with true by reflexivity. cbn [negb andb].
    rewrite indentRe_no_terminator by assumption.
    apply blank_prefix_append; assumption. }
  induction before as [|c before IH]; [exact Hbase|].
  rewrite append_cons. cbn [indentRe].
  replace (no_terminator (String c (before +:+ newline +:+ blanks +:+ text))) with false;
    [exact IH|].
  symmetry. cbn [no_terminator]. rewrite !no_terminator_append.
  replace (no_terminator newline) with false by reflexivity.
  rewrite andb_false_r, andb_false_r. reflexivity.
Qed.

Lemma isBlank_not_brace c : isBlank c = true -> is_not "{" c = true.
Proof.
  destruct c as [[] [] [] [] [] [] [] []]; try reflexivity; discriminate.
Qed.

Lemma all_blank_not_brace blanks :
  all_chars isBlank blanks = true -> all_chars (is_not "{") blanks = true.
Proof.
  induction blanks as [|c blanks IH]; [reflexivity|]. simpl.
  intros H. apply andb_true_iff in H as [Hc Hb].
  rewrite (isBlank_not_brace _ Hc), IH by assumption. reflexivity.
Qed.

(** X3: A value of several lines put in place of the one placeholder of a
    template carries the indentation of the line of the placeholder: each of
    its lines after the first is preceded by the white space at the head of
    that line. *)
Theorem fromTemplate_indents_value before blanks text post key val
    (option_end : option string) :
  all_chars (is_not "{") before = true ->
  all_chars isBlank blanks = true ->
  all_chars (is_not "{") text = true ->
  no_terminator text = true -> blank_prefix text = "" ->
  all_chars (is_not "{") post = true ->
  fromTemplate (before +:+ newline +:+ blanks +:+ text +:+ "{{" +:+ key +:+ "}}" +:+ post)
    [(key, val)] (mkTemplateOptions None option_end)
  = trim (before +:+ newline +:+ blanks +:+ text
          +:+ join (newline +:+ blanks) (split newline val) +:+ post)
    +:+ match option_end with None => newline | Some e => e end.
Proof.
  intros Hbefore Hblanks Htext Hline Hstart Hpost.
  unfold fromTemplate. cbn [autoindent end_ fold_left fst snd]. f_equal. f_equal.
  unfold substitute.
  set (pre := before +:+ newline +:+ blanks +:+ text).
  assert (before +:+ newline +:+ blanks +:+ text +:+ "{{" +:+ key +:+ "}}" +:+ post
          = pre +:+ ("{{" +:+ key +:+ "}}") +:+ post) as ->.
  { unfold pre. rewrite !append_assoc. reflexivity. }
  assert (all_chars (is_not "{") pre = true) as Hpre.
  { unfold pre. rewrite !all_chars_append, Hbefore, Htext.
    rewrite (all_blank_not_brace _ Hblanks). reflexivity. }
  rewrite placeholder_eq, (split_first _ _ _ _ Hpre).
  rewrite (split_absent _ post) by (apply all_chars_not_occurs; assumption).
  cbn [fold_left]. unfold pre at 2.
  rewrite indentRe_last_line by assumption.
  unfold pre. rewrite !append_assoc. reflexivity.
Qed.

End Template.

Lemma fromTemplate_autoindent_single_line_witness :
  fromTemplate "Hello {{who}}, from {{me}}" [("who", "world"); ("me", "utils")]
    (mkTemplateOptions None None)
  = fromTemplate "Hello {{who}}, from {{me}}" [("who", "world"); ("me", "utils")]
      (mkTemplateOptions (Some false) None).
Proof.
  apply (fromTemplate_autoindent_single_line "Hello {{who}}, from {{me}}"
           [("who", "world"); ("me", "utils")] None None).
  repeat constructor.
Defined.

Lemma fromTemplate_unused_keys_witness :
  fromTemplate "  plain text " [("name", "x")] (mkTemplateOptions None None)
  = trim "  plain text " +:+ newline.
Proof.
  apply (fromTemplate_unused_keys "  plain text " [("name", "x")]
           (mkTemplateOptions None None)).
  constructor; [|constructor].
  apply all_chars_not_occurs. reflexivity.
Defined.

Lemma fromTemplate_indents_value_witness :
  fromTemplate ("list:" +:+ newline +:+ "  " +:+ "- " +:+ "{{" +:+ "items" +:+ "}}" +:+ ";")
    [("items", "a" +:+ newline +:+ "b")] (mkTemplateOptions None None)
  = trim ("list:" +:+ newline +:+ "  " +:+ "- "
          +:+ join (newline +:+ "  ") (split newline ("a" +:+ newline +:+ "b")) +:+ ";")
    +:+ newline.
Proof.
  apply (fromTemplate_indents_value "list:" "  " "- " ";" "items"
           ("a" +:+ newline +:+ "b") None); reflexivity.
Defined.

(** ** [camelCase] *)

Section CamelCase.

Implicit Types (s run rest w : string) (c : ascii) (prev : option ascii).

Ltac ascii_cases c := destruct c as [[] [] [] [] [] [] [] []].

Lemma take_drop_string n s : take_string n s +:+ drop_string n s = s.
Proof.
  revert s. induction n as [|n IH]; intros [|c s]; try reflexivity.
  cbn [take_string drop_string]. rewrite append_cons, IH. reflexivity.
Qed.

Lemma run_length_take f s : all_chars f (take_string (run_length f s) s) = true.
Proof.
  induction s as [|c s IH]; [reflexivity|]. cbn [run_length].
  destruct (f c) eqn:E; [|reflexivity].
  cbn [take_string all_chars]. rewrite E, IH. reflexivity.
Qed.

Lemma length_take_run f s : String.length (take_string (run_length f s) s) = run_length f s.
Proof.
  induction s as [|c s IH]; [reflexivity|]. cbn [run_length].
  destruct (f c); [|reflexivity]. cbn [take_string String.length]. rewrite IH. reflexivity.
Qed.

(** Passing the rest of a match changes nothing but the position. *)
Lemma camel_go_skip upper run :
  forall rest index prev,
  camel_go upper index prev (String.length run) (run +:+ rest)
  = camel_go upper (index + String.length run) (prev_after prev run) 0 rest.
Proof.
  induction run as [|c run IH]; intros rest index prev.
  - rewrite append_nil_l. cbn [String.length prev_after]. rewrite Nat.add_0_r.
    reflexivity.
  - rewrite append_cons. cbn [String.length camel_go prev_after].
    rewrite IH. f_equal. lia.
Qed.

Lemma camel_chars_append upper s1 :
  forall s2 index prev,
  camel_chars upper index prev (s1 +:+ s2)
  = camel_chars upper index prev s1
    +:+ camel_chars upper (index + String.length s1) (prev_after prev s1) s2.
Proof.
  induction s1 as [|c s1 IH]; intros s2 index prev.
  - rewrite append_nil_l. cbn [camel_chars String.length prev_after].
    rewrite Nat.add_0_r. reflexivity.
  - rewrite append_cons. cbn [camel_chars String.length prev_after].
    rewrite IH, append_assoc. do 3 f_equal. lia.
Qed.

Lemma trimEnd_head c s :
  isWhiteSpace c = false -> exists s', trimEnd (String c s) = String c s'.
Proof.
  intros H. cbn [trimEnd]. destruct (trimEnd s); rewrite ?H; eauto.
Qed.

Lemma trim_all_space run : all_chars isWhiteSpace run = true -> trim run = "".
Proof.
  unfold trim. induction run as [|c run IH]; [reflexivity|].
  simpl. intros H. apply andb_true_iff in H as [Hc Hr]. rewrite Hc. auto.
Qed.

Lemma toUpperCase_underscores run :
  all_chars (Ascii.eqb "_") run = true ->
  toUpperCase run = run /\ toLowerCase run = run.
Proof.
  induction run as [|c run IH]; [split; reflexivity|].
  cbn [all_chars toUpperCase toLowerCase].
  intros H. apply andb_true_iff in H as [Hc Hr].
  apply Ascii.eqb_eq in Hc. subst c. destruct (IH Hr) as [-> ->].
  split; reflexivity.
Qed.

(** The replacement of a run of white space or of dashes is empty; a run of
    underscores is replaced by itself. *)
Lemma camel_replacer_space upper run index :
  all_chars isWhiteSpace run = true -> camel_replacer upper run index = "".
Proof.
  intros H. unfold camel_replacer, is_zero. rewrite (trim_all_space _ H). reflexivity.
Qed.

Lemma camel_replacer_dash upper run index :
  camel_replacer upper (String "-" run) index = "".
Proof.
  unfold camel_replacer. destruct (is_zero (String "-" run)); reflexivity.
Qed.

Lemma camel_replacer_underscores upper run index :
  all_chars (Ascii.eqb "_") (String "_" run) = true ->
  camel_replacer upper (String "_" run) index = String "_" run.
Proof.
  intros H. unfold camel_replacer.
  assert (is_zero (String "_" run) = false) as ->.
  { unfold is_zero, trim. cbn [trimStart].
    replace (isWhiteSpace "_") with false by reflexivity.
    destruct (trimEnd_head "_" run eq_refl) as [s' ->]. reflexivity. }
  replace (Ascii.eqb "_" "-") with false by reflexivity. cbn [orb].
  destruct (toUpperCase_underscores _ H) as [-> ->].
  destruct ((index =? 0)%nat && negb upper); reflexivity.
Qed.

(** Inside a run every character gives what the run gives. *)
Lemma camel_chars_space upper run :
  all_chars isWhiteSpace run = true ->
  forall index prev, camel_chars upper index prev run = "".
Proof.
  induction run as [|c run IH]; [reflexivity|]. simpl.
  intros H index prev. apply andb_true_iff in H as [Hc Hr].
  rewrite IH by assumption. rewrite append_nil_r.
  unfold camel_char, word_boundary.
  assert (isWord c = false /\ isUpper c = false) as [-> ->].
  { clear -Hc. ascii_cases c; try discriminate; split; reflexivity. }
  rewrite Hc, andb_false_r, andb_false_r. reflexivity.
Qed.

Lemma camel_chars_dash upper run :
  all_chars (Ascii.eqb "-") run = true ->
  forall index prev, camel_chars upper index prev run = "".
Proof.
  induction run as [|c run IH]; [reflexivity|]. cbn [all_chars camel_chars].
  intros H index prev. apply andb_true_iff in H as [Hc Hr].
  apply Ascii.eqb_eq in Hc. subst c.
  rewrite IH by assumption. rewrite append_nil_r.
  unfold camel_char. replace (isWord "-") with false by reflexivity.
  rewrite andb_false_r, andb_false_r. reflexivity.
Qed.

Lemma camel_char_underscore upper index prev : camel_char upper index prev "_" = "_".
Proof.
  unfold camel_char, camel_replacer.
  replace (is_zero "_") with false by reflexivity.
  destruct (index =? 0)%nat, upper, (word_boundary prev "_"); reflexivity.
Qed.

Lemma camel_chars_underscores upper run :
  all_chars (Ascii.eqb "_") run = true ->
  forall index prev, camel_chars upper index prev run = run.
Proof.
  induction run as [|c run IH]; [reflexivity|]. cbn [all_chars camel_chars].
  intros H index prev. apply andb_true_iff in H as [Hc Hr].
  apply Ascii.eqb_eq in Hc. subst c.
  rewrite IH by assumption. rewrite camel_char_underscore. reflexivity.
Qed.

(** The replacement, match by match, is the replacement character by
    character. *)
Lemma camel_go_chars upper :
  forall n s, (String.length s <= n)%nat ->
  forall index prev, camel_go upper index prev 0 s = camel_chars upper index prev s.
Proof.
  induction n as [|n IH]; intros [|c s] Hlen index prev; try reflexivity.
  { simpl in Hlen. lia. }
  assert (String.length s <= n)%nat as Hs by (simpl in Hlen; lia).
  assert (forall f out,
            f c = true ->
            camel_replacer upper (take_string (run_length f (String c s)) (String c s)) index
            = out ->
            camel_chars upper index prev
              (take_string (run_length f (String c s)) (String c s)) = out ->
            camel_replacer upper (take_string (run_length f (String c s)) (String c s)) index
            +:+ camel_go upper (S index) (Some c) (run_length f (String c s) - 1) s
            = camel_chars upper index prev (String c s)) as Hrun.
  { intros f out Hc Hrep Hchars.
    assert (run_length f (String c s) = S (run_length f s)) as HN
      by (cbn [run_length]; rewrite Hc; reflexivity).
    set (N := run_length f (String c s)) in *.
    transitivity (camel_chars upper index prev
                    (take_string N (String c s) +:+ drop_string N (String c s)));
      [|rewrite take_drop_string; reflexivity].
    rewrite camel_chars_append, Hchars, Hrep. f_equal.
    rewrite HN. cbn [take_string drop_string String.length prev_after].
    replace (S (run_length f s) - 1)%nat with (run_length f s) by lia.
    set (M := run_length f s).
    transitivity (camel_go upper (S index) (Some c) (String.length (take_string M s))
                    (take_string M s +:+ drop_string M s)).
    { rewrite take_drop_string. unfold M. rewrite length_take_run. reflexivity. }
    rewrite camel_go_skip.
    replace (S index + String.length (take_string M s))%nat
      with (index + S (String.length (take_string M s)))%nat by lia.
    apply IH.
    pose proof (f_equal String.length (take_drop_string M s)) as Hl.
    rewrite length_append in Hl. lia. }
  cbn [camel_go]. unfold camel_match.
  destruct ((index =? 0)%nat && isWord c) eqn:E1.
  { cbn [camel_chars]. unfold camel_char. rewrite E1.
    cbn [take_string Nat.sub]. rewrite IH by assumption. reflexivity. }
  destruct (isUpper c) eqn:E2.
  { cbn [camel_chars]. unfold camel_char. rewrite E1, E2.
    cbn [take_string Nat.sub]. rewrite IH by assumption. reflexivity. }
  destruct (word_boundary prev c && isWord c) eqn:E3.
  { cbn [camel_chars]. unfold camel_char. rewrite E1, E2, E3.
    cbn [take_string Nat.sub]. rewrite IH by assumption. reflexivity. }
  destruct (isWhiteSpace c) eqn:Hw.
  { apply (Hrun isWhiteSpace "" Hw).
    - apply camel_replacer_space, run_length_take.
    - apply camel_chars_space, run_length_take. }
  destruct (Ascii.eqb c "-") eqn:Hd.
  { apply Ascii.eqb_eq in Hd. subst c.
    apply (Hrun (Ascii.eqb "-") "" eq_refl).
    - cbn [run_length]. replace (Ascii.eqb "-" "-") with true by reflexivity.
      cbn [take_string]. apply camel_replacer_dash.
    - apply camel_chars_dash, run_length_take. }
  destruct (Ascii.eqb c "_") eqn:Hu.
  { apply Ascii.eqb_eq in Hu. subst c.
    apply (Hrun (Ascii.eqb "_")
             (take_string (run_length (Ascii.eqb "_") (String "_" s)) (String "_" s))
             eq_refl).
    - pose proof (run_length_take (Ascii.eqb "_") (String "_" s)) as H.
      cbn [run_length] in *.
      replace (Ascii.eqb "_" "_") with true in * by reflexivity.
      cbn [take_string] in *. apply camel_replacer_underscores. exact H.
    - apply camel_chars_underscores, run_length_take. }
  cbn [camel_chars]. unfold camel_char. rewrite E1, E2, E3, Hw, Hd, Hu.
  rewrite IH by assumption. reflexivity.
Qed.

Lemma camelCase_chars str upper : camelCase str upper = camel_chars upper 0 None str.
Proof. unfold camelCase. apply (camel_go_chars upper (String.length str)). lia. Qed.

Lemma camel_char_no_separator upper index prev c :
  all_chars (fun c => negb (isSeparator c)) (camel_char upper index prev c) = true.
Proof.
  unfold camel_char, word_boundary, camel_replacer.
  destruct (index =? 0)%nat, upper;
    (destruct prev as [q|]; [destruct (isWord q)|]);
    ascii_cases c; vm_compute; reflexivity.
Qed.

(** X4: Whatever the input, the result of [camelCase] holds no white space and
    no dash. *)
Theorem camelCase_no_separator str upper :
  all_chars (fun c => negb (isSeparator c)) (camelCase str upper) = true.
Proof.
  rewrite camelCase_chars. generalize 0%nat, (@None ascii).
  induction str as [|c str IH]; intros index prev; [reflexivity|].
  cbn [camel_chars]. rewrite all_chars_append, camel_char_no_separator, IH.
  reflexivity.
Qed.

Lemma isSnake_facts c :
  isSnake c = true -> isWord c = true /\ isUpper c = false /\ isSeparator c = false.
Proof. ascii_cases c; intros H; vm_compute in H; try discriminate; repeat split. Qed.

Lemma camel_char_snake upper index q c :
  index <> 0%nat -> isWord q = true -> isSnake c = true ->
  camel_char upper index (Some q) c = String c "".
Proof.
  intros Hi Hq Hc. unfold camel_char, word_boundary. rewrite Hq.
  destruct index as [|index]; [contradiction|]. cbn [Nat.eqb andb].
  destruct (isSnake_facts c Hc) as (-> & -> & Hsep). cbn [xorb andb].
  unfold isSeparator in Hsep. apply orb_false_iff in Hsep as [-> ->].
  destruct (Ascii.eqb_spec c "_") as [->|_]; reflexivity.
Qed.

Lemma camel_chars_snake upper s :
  all_chars isSnake s = true ->
  forall index q, index <> 0%nat -> isWord q = true ->
  camel_chars upper index (Some q) s = s.
Proof.
  induction s as [|c s IH]; [reflexivity|]. cbn [all_chars camel_chars].
  intros H index q Hi Hq. apply andb_true_iff in H as [Hc Hs].
  rewrite camel_char_snake by assumption.
  rewrite IH; [reflexivity|assumption|lia|apply (isSnake_facts c Hc)].
Qed.

Lemma camel_char_first upper c :
  isSnake c = true -> c <> "0"%char ->
  camel_char upper 0 None c = String (if upper then toUpper c else c) "".
Proof.
  intros Hc H0. destruct upper; ascii_cases c; vm_compute in Hc; try discriminate;
    try reflexivity; exfalso; apply H0; reflexivity.
Qed.

(** X5: A string of lower case letters, digits and underscores that does not
    start with the digit zero is returned as it is, its underscores
    included, but for its first letter, which is put in upper case when
    [upper] is set. *)
Theorem camelCase_snake_case_kept str upper :
  all_chars isSnake str = true -> strip_prefix "0" str = None ->
  camelCase str upper = if upper then capitalize str else str.
Proof.
  intros Hall Hzero. rewrite camelCase_chars.
  destruct str as [|c str]; [destruct upper; reflexivity|].
  cbn [all_chars] in Hall. apply andb_true_iff in Hall as [Hc Hs].
  assert (c <> "0"%char) as H0.
  { intros ->. discriminate. }
  cbn [camel_chars]. rewrite camel_char_first by assumption.
  rewrite camel_chars_snake;
    [destruct upper; reflexivity|assumption|lia|apply (isSnake_facts c Hc)].
Qed.

Lemma isSeparator_facts c :
  isSeparator c = true ->
  isWord c = false /\ isUpper c = false /\
  (isWhiteSpace c = true \/ (isWhiteSpace c = false /\ Ascii.eqb c "-" = true)).
Proof.
  ascii_cases c; intros H; vm_compute in H; try discriminate;
    (split; [reflexivity|split; [reflexivity|]]);
    first [left; reflexivity|right; split; reflexivity].
Qed.

Lemma camel_char_separator upper index prev c :
  isSeparator c = true -> camel_char upper index prev c = "".
Proof.
  intros Hc. unfold camel_char.
  destruct (isSeparator_facts c Hc) as (-> & -> & [-> |[-> ->]]);
    rewrite !andb_false_r; reflexivity.
Qed.

Lemma camel_chars_separators upper sep :
  all_chars isSeparator sep = true ->
  forall index prev, camel_chars upper index prev sep = "".
Proof.
  induction sep as [|c sep IH]; [reflexivity|]. cbn [all_chars camel_chars].
  intros H index prev. apply andb_true_iff in H as [Hc Hs].
  rewrite camel_char_separator, IH by assumption. reflexivity.
Qed.

Lemma prev_after_separators sep prev :
  sep <> "" -> all_chars isSeparator sep = true ->
  exists q, prev_after prev sep = Some q /\ isWord q = false.
Proof.
  revert prev. induction sep as [|c sep IH]; intros prev Hne Hall; [contradiction|].
  cbn [all_chars] in Hall. apply andb_true_iff in Hall as [Hc Hs].
  cbn [prev_after]. destruct sep as [|c' sep].
  - exists c. split; [reflexivity|apply (isSeparator_facts c Hc)].
  - apply IH; [discriminate|assumption].
Qed.

Lemma isLower_facts c :
  isLower c = true -> isSnake c = true /\ isUpper c = false /\ c <> "0"%char.
Proof.
  ascii_cases c; intros H; vm_compute in H; try discriminate;
    (split; [reflexivity|split; [reflexivity|discriminate]]).
Qed.

Lemma all_lower_snake w : all_chars isLower w = true -> all_chars isSnake w = true.
Proof.
  induction w as [|c w IH]; [reflexivity|]. cbn [all_chars].
  intros H. apply andb_true_iff in H as [Hc Hw].
  rewrite IH by assumption. destruct (isLower_facts c Hc) as (-> & _). reflexivity.
Qed.

Lemma camel_char_word_start upper index q c :
  index <> 0%nat -> isWord q = false -> isLower c = true ->
  camel_char upper index (Some q) c = String (toUpper c) "".
Proof.
  intros Hi Hq Hc. unfold camel_char, word_boundary, camel_replacer. rewrite Hq.
  destruct index as [|index]; [contradiction|]. cbn [Nat.eqb andb].
  ascii_cases c; vm_compute in Hc; try discriminate; reflexivity.
Qed.

(** A word behind a separator gets its first letter in upper case. *)
Lemma camel_chars_word upper w index q :
  index <> 0%nat -> isWord q = false -> all_chars isLower w = true ->
  camel_chars upper index (Some q) w = capitalize w.
Proof.
  intros Hi Hq Hw. destruct w as [|c w]; [reflexivity|].
  cbn [all_chars] in Hw. apply andb_true_iff in Hw as [Hc Hw].
  cbn [camel_chars capitalize]. rewrite camel_char_word_start by assumption.
  rewrite camel_chars_snake; [reflexivity|apply all_lower_snake; assumption|lia|].
  apply (isSnake_facts c). apply (isLower_facts c Hc).
Qed.

Lemma camel_chars_words upper (rest : list (string * string)) :
  Forall (fun sw : string * string =>
            fst sw <> "" /\ all_chars isSeparator (fst sw) = true /\
            all_chars isLower (snd sw) = true) rest ->
  forall index prev,
  camel_chars upper index prev (glue (map (fun sw => fst sw +:+ snd sw) rest))
  = glue (map (fun sw => capitalize (snd sw)) rest).
Proof.
  induction 1 as [|[sep w] rest (Hne & Hsep & Hw) _ IH]; intros index prev;
    [reflexivity|].
  cbn [map glue fst snd] in *. rewrite append_assoc.
  rewrite camel_chars_append, camel_chars_separators by assumption.
  rewrite append_nil_l, camel_chars_append, IH. f_equal.
  destruct (prev_after_separators sep prev Hne Hsep) as (q & -> & Hq).
  apply camel_chars_word; [|assumption|assumption].
  destruct sep; [contradiction|simpl; lia].
Qed.

(** X6: Words of lower case letters separated by white space or dashes are
    joined, each word behind a separator with its first letter in upper
    case; the first word keeps its first letter unless [upper] is set. *)
Theorem camelCase_words w0 (rest : list (string * string)) upper :
  all_chars isLower w0 = true ->
  Forall (fun sw : string * string =>
            fst sw <> "" /\ all_chars isSeparator (fst sw) = true /\
            all_chars isLower (snd sw) = true) rest ->
  camelCase (w0 +:+ glue (map (fun sw => fst sw +:+ snd sw) rest)) upper
  = (if upper then capitalize w0 else w0)
    +:+ glue (map (fun sw => capitalize (snd sw)) rest).
Proof.
  intros Hw0 Hrest. rewrite camelCase_chars, camel_chars_append.
  rewrite (camel_chars_words upper rest Hrest). f_equal.
  destruct w0 as [|c w0]; [destruct upper; reflexivity|].
  cbn [all_chars] in Hw0. apply andb_true_iff in Hw0 as [Hc Hw0].
  destruct (isLower_facts c Hc) as (Hsnake & _ & H0).
  cbn [camel_chars]. rewrite camel_char_first by assumption.
  rewrite camel_chars_snake;
    [destruct upper; reflexivity|apply all_lower_snake; assumption|lia|].
  apply (isSnake_facts c Hsnake).
Qed.

End CamelCase.

Lemma camelCase_snake_case_kept_witness :
  camelCase "snake_case" false = "snake_case".
Proof.
  apply (camelCase_snake_case_kept "snake_case" false); reflexivity.
Defined.

Lemma camelCase_words_witness :
  camelCase "snake-case  string" false = "snakeCaseString".
Proof.
  apply (camelCase_words "snake" [("-", "case"); ("  ", "string")] false).
  - reflexivity.
  - repeat constructor; discriminate.
Defined.

(** ** [ensureUnixPathSep] and [stem] *)

Section Paths.

Context (H : Host).

Implicit Types (source s rest : string).

Lemma replace_backslashes_clean s :
  all_chars (is_not backslash) (replace_backslashes s) = true.
Proof.
  induction s as [|c s IH]; [reflexivity|]. cbn [replace_backslashes all_chars].
  rewrite IH, andb_true_r. unfold is_not.
  destruct (Ascii.eqb c backslash) eqn:E; [reflexivity|]. rewrite E. reflexivity.
Qed.

Lemma replace_backslashes_length s :
  String.length (replace_backslashes s) = String.length s.
Proof. induction s as [|c s IH]; [reflexivity|]. simpl. rewrite IH. reflexivity. Qed.

Lemma replace_backslashes_fixed s :
  all_chars (is_not backslash) s = true -> replace_backslashes s = s.
Proof.
  induction s as [|c s IH]; [reflexivity|]. cbn [replace_backslashes all_chars].
  intros Hs. apply andb_true_iff in Hs as [Hc Hs]. rewrite (IH Hs).
  unfold is_not in Hc. apply negb_true_iff in Hc. rewrite Hc. reflexivity.
Qed.

(** X7: On a host whose path separator is not the slash, the result of
    [ensureUnixPathSep] holds no backslash and has the length of the
    source; a source without backslash is returned as it is. *)
Theorem ensureUnixPathSep_no_backslash source :
  path_sep H <> "/" ->
  all_chars (is_not backslash) (ensureUnixPathSep H source) = true /\
  String.length (ensureUnixPathSep H source) = String.length source /\
  (all_chars (is_not backslash) source = true -> ensureUnixPathSep H source = source).
Proof.
  intros Hsep. unfold ensureUnixPathSep.
  destruct (String.eqb_spec (path_sep H) "/") as [E|_]; [contradiction|].
  split; [apply replace_backslashes_clean|].
  split; [apply replace_backslashes_length|apply replace_backslashes_fixed].
Qed.

(** X8: Applying [ensureUnixPathSep] to its own result changes nothing, on any
    host. *)
Theorem ensureUnixPathSep_idempotent source :
  ensureUnixPathSep H (ensureUnixPathSep H source) = ensureUnixPathSep H source.
Proof.
  unfold ensureUnixPathSep. destruct (String.eqb (path_sep H) "/"); [reflexivity|].
  apply replace_backslashes_fixed, replace_backslashes_clean.
Qed.

Lemma split_fuel_dot_head fuel :
  forall s, (String.length s < fuel)%nat ->
  exists first pieces,
    split_fuel fuel "." s = first :: pieces /\
    all_chars (is_not ".") first = true /\
    (s = first \/ exists rest, s = first +:+ "." +:+ rest).
Proof.
  induction fuel as [|fuel IH]; intros s Hlen; [lia|].
  destruct (strip_prefix "." s) as [rest|] eqn:Hp.
  - rewrite (split_fuel_strip _ _ _ _ Hp). apply strip_prefix_Some in Hp.
    exists "", (split_fuel fuel "." rest). split; [reflexivity|].
    split; [reflexivity|]. right. exists rest. rewrite append_nil_l. exact Hp.
  - destruct s as [|c s].
    + exists "", []. split; [reflexivity|]. split; [reflexivity|]. left. reflexivity.
    + rewrite (split_fuel_keep _ _ _ _ Hp).
      destruct (IH s) as (first & pieces & -> & Hfirst & Hs); [simpl in Hlen; lia|].
      exists (String c first), pieces. split; [reflexivity|]. split.
      * cbn [all_chars]. rewrite Hfirst, andb_true_r.
        cbn [strip_prefix] in Hp. unfold is_not.
        destruct (Ascii.eqb_spec c "."%char) as [->|_]; [discriminate|reflexivity].
      * destruct Hs as [->|(rest & ->)]; [left; reflexivity|].
        right. exists rest. rewrite append_cons. reflexivity.
Qed.

(** X9: [stem] gives what precedes the first dot of the base name of the path,
    the whole base name when it holds no dot: the stem holds no dot, and the
    base name is the stem, or the stem followed by a dot and more. *)
Theorem stem_before_first_dot pathArg :
  all_chars (is_not ".") (stem H pathArg) = true /\
  (path_basename H pathArg = stem H pathArg \/
   exists rest, path_basename H pathArg = stem H pathArg +:+ "." +:+ rest).
Proof.
  unfold stem, split.
  destruct (split_fuel_dot_head (S (String.length (path_basename H pathArg)))
              (path_basename H pathArg)) as (first & pieces & -> & Hfirst & Hs); [lia|].
  split; assumption.
Qed.

End Paths.

Lemma ensureUnixPathSep_no_backslash_witness :
  let source := "packages" +:+ String backslash "a" +:+ String backslash "index.ts" in
  all_chars (is_not backslash) (ensureUnixPathSep windows_host source) = true /\
  String.length (ensureUnixPathSep windows_host source) = String.length source /\
  (all_chars (is_not backslash) source = true ->
   ensureUnixPathSep windows_host source = source).
Proof.
  apply (ensureUnixPathSep_no_backslash windows_host). discriminate.
Defined.

(** ** [run] and [prebump] *)

Section Runner.

Context (H : Host).

Implicit Types (value out status x ws : string) (sh : Shell).

Lemma trimEnd_all_space ws : all_chars isWhiteSpace ws = true -> trimEnd ws = "".
Proof.
  induction ws as [|c ws IH]; [reflexivity|]. cbn [all_chars trimEnd].
  intros Hws. apply andb_true_iff in Hws as [Hc Hws]. rewrite (IH Hws), Hc. reflexivity.
Qed.

Lemma trimEnd_append_space x ws :
  all_chars isWhiteSpace ws = true -> trimEnd (x +:+ ws) = trimEnd x.
Proof.
  intros Hws. induction x as [|c x IH].
  - rewrite append_nil_l. apply trimEnd_all_space. exact Hws.
  - rewrite append_cons. cbn [trimEnd]. rewrite IH. reflexivity.
Qed.

Lemma trim_append_space x ws :
  all_chars isWhiteSpace ws = true -> trim (x +:+ ws) = trim x.
Proof.
  intros Hws. unfold trim. induction x as [|c x IH].
  - rewrite append_nil_l. apply (trim_all_space ws Hws).
  - rewrite append_cons. cbn [trimStart]. destruct (isWhiteSpace c); [exact IH|].
    rewrite <- append_cons. apply trimEnd_append_space. exact Hws.
Qed.

Lemma chomp_spec value :
  exists ws, value = chomp value +:+ ws /\ all_chars isWhiteSpace ws = true.
Proof.
  induction value as [|c value (ws & IH & Hws)].
  - exists "". split; reflexivity.
  - cbn [chomp].
    destruct (String.eqb_spec (String c value) (String CR newline)) as [E|_];
      [|destruct (String.eqb_spec (String c value) newline) as [E|_]]; cbn [orb].
    + exists (String c value). split; [reflexivity|]. rewrite E. reflexivity.
    + exists (String c value). split; [reflexivity|]. rewrite E. reflexivity.
    + exists ws. split; [|exact Hws]. rewrite append_cons, <- IH. reflexivity.
Qed.

(** The removal of the final newline is subsumed by [trim]. *)
Lemma trim_chomp value : trim (chomp value) = trim value.
Proof.
  destruct (chomp_spec value) as (ws & E & Hws).
  rewrite E at 2. symmetry. apply trim_append_space. exact Hws.
Qed.

Lemma trimEnd_idempotent x : trimEnd (trimEnd x) = trimEnd x.
Proof.
  induction x as [|c x IH]; [reflexivity|]. cbn [trimEnd].
  destruct (trimEnd x) as [|c' x'] eqn:E.
  - destruct (isWhiteSpace c) eqn:Hc; [reflexivity|]. cbn [trimEnd]. rewrite Hc. reflexivity.
  - cbn [trimEnd] in *. rewrite IH. reflexivity.
Qed.

Lemma trimStart_head x :
  match trimStart x with String c _ => isWhiteSpace c = false | EmptyString => True end.
Proof.
  induction x as [|c x IH]; [exact I|]. cbn [trimStart].
  destruct (isWhiteSpace c) eqn:Hc; [exact IH|exact Hc].
Qed.

Lemma trim_idempotent x : trim (trim x) = trim x.
Proof.
  unfold trim. pose proof (trimStart_head x) as Hhead.
  destruct (trimStart x) as [|c t]; [reflexivity|].
  destruct (trimEnd_head c t Hhead) as (t' & E).
  rewrite E. cbn [trimStart]. rewrite Hhead, <- E. apply trimEnd_idempotent.
Qed.

(** X10: What [run] returns holds no white space at its ends: it is the empty
    string, or the output of the command with the white space of both ends
    removed, not only its final newline. *)
Theorem run_output_trimmed cmd stdio quiet sh out :
  fst (run H cmd stdio quiet sh) = inr out ->
  trim out = out /\
  (out = "" \/
   exists mode value,
     execSync H (executed sh) cmd mode = inr (Some value) /\ out = trim value).
Proof.
  unfold run.
  destruct (execSync H (executed sh) cmd _) as [e|[value|]] eqn:E; cbn [fst];
    intros [= <-].
  - rewrite trim_chomp. split; [apply trim_idempotent|].
    right. eexists _, value. split; [exact E|reflexivity].
  - split; [reflexivity|left; reflexivity].
Qed.

Lemma length_positive status : (0 <? String.length status)%nat = negb (String.eqb status "").
Proof. destruct status; reflexivity. Qed.

(** X11: Once bump2version is installed, [prebump] succeeds when the output of
    [git status --porcelain] is empty or white space, and otherwise throws
    the error whose message ends with that output, trimmed. *)
Theorem prebump_clean_state sh installed status :
  execSync H (executed sh) "python -m pip install bump2version" "inherit" = inr installed ->
  execSync H (executed sh ++ ["python -m pip install bump2version"])
    "git status --porcelain" "pipe" = inr (Some status) ->
  fst (prebump H sh) =
  if String.eqb (trim status) "" then inr tt
  else inl (JsError (dirty_message (trim status))).
Proof.
  intros Hpip Hgit. unfold prebump, run. rewrite Hpip.
  destruct installed as [value|]; cbn [executed console_debug String.eqb Ascii.eqb];
    cbn [executed]; rewrite Hgit, length_positive, trim_chomp;
    destruct (String.eqb (trim status) ""); reflexivity.
Qed.

End Runner.

Lemma run_output_trimmed_witness :
  trim "M buildutils/src/utils.ts" = "M buildutils/src/utils.ts" /\
  ("M buildutils/src/utils.ts" = "" \/
   exists mode value,
     execSync dirty_host (executed (mkShell [] [])) "git status --porcelain" mode
     = inr (Some value) /\
     "M buildutils/src/utils.ts" = trim value).
Proof.
  apply (run_output_trimmed dirty_host "git status --porcelain" (Some "pipe") false
           (mkShell [] []) "M buildutils/src/utils.ts").
  vm_compute. reflexivity.
Defined.

Lemma prebump_clean_state_witness :
  fst (prebump dirty_host (mkShell [] [])) =
  if String.eqb (trim (" M buildutils/src/utils.ts" +:+ newline)) "" then inr tt
  else inl (JsError (dirty_message (trim (" M buildutils/src/utils.ts" +:+ newline)))).
Proof.
  apply (prebump_clean_state dirty_host (mkShell [] []) None
           (" M buildutils/src/utils.ts" +:+ newline)); reflexivity.
Defined.

(** ** More on the writers *)

Section Writing.

Context (P : Platform).

(** X12: When the text to write holds no carriage return, a call of
    [writePackageData] that returns leaves the file such that the same call
    again writes nothing and returns [false]. *)
Theorem writePackageData_idempotent pkgJsonPath (data : JSONObject) s changed s1 :
  (forall c,
     c ∈ list_ascii_of_string (JSON_stringify P (sortPackageJson P (JObject data)) +:+ newline) ->
     c <> CR) ->
  writePackageData P pkgJsonPath data s = (inr changed, s1) ->
  writePackageData P pkgJsonPath data s1 = (inr false, s1).
Proof.
  intros Hcr. unfold writePackageData, bind, readFileSync, writeFileSync.
  destruct (fs s !! pkgJsonPath) as [raw|] eqn:Hraw; [|discriminate].
  destruct (String.eqb_spec
              (JSON_stringify P (sortPackageJson P (JObject data)) +:+ newline)
              (join_LF (split_CRLF raw))) as [Heq|Hne]; cbn [negb].
  - intros [= <- <-]. rewrite Hraw.
    destruct (String.eqb_spec
                (JSON_stringify P (sortPackageJson P (JObject data)) +:+ newline)
                (join_LF (split_CRLF raw))); [reflexivity|contradiction].
  - destruct (write_error P (fs s) pkgJsonPath); [discriminate|].
    intros [= <- <-]. cbn [fs]. rewrite lookup_insert_eq.
    rewrite (join_split_no_CR _ Hcr), String.eqb_refl. reflexivity.
Qed.

Lemma sequence_first {A B : Type} (g : A -> exn + B) (h : A -> bool) (E : exn) l :
  Forall (fun a => match g a with inl e => e = E | inr _ => h a = false end) l ->
  match sequence (map g l) with inl e => e = E | inr _ => existsb h l = false end.
Proof.
  induction 1 as [|a l Ha _ IH]; [reflexivity|]. cbn [map sequence existsb].
  destruct (g a) as [e|b]; [exact Ha|].
  destruct (sequence (map g l)) as [e|bs]; [exact IH|].
  rewrite Ha, IH. reflexivity.
Qed.

(** [sortObjByKey] throws on the values that hold a [null], and nothing
    else than the [TypeError] of [Object.keys(null)]. *)
Lemma sortObjByKey_throws v :
  match sortObjByKey v with
  | inl e => e = TypeError "Cannot convert undefined or null to object"
  | inr _ => has_null v = false
  end.
Proof.
  induction v as [ | b | n | s | l IH | o IH ] using JSON_induction;
    try reflexivity.
  - cbn [sortObjByKey has_null].
    pose proof (sequence_first sortObjByKey has_null _ l IH) as Hl.
    destruct (sequence (map sortObjByKey l)); exact Hl.
  - cbn [sortObjByKey has_null].
    match goal with |- context [sequence (map ?g o)] =>
      pose proof (sequence_first g (fun kv : string * JSON => has_null (snd kv))
                    (TypeError "Cannot convert undefined or null to object") o) as Ho
    end.
    match type of Ho with ?A -> _ => assert A as HA end.
    { clear Ho. induction IH as [|[k v] o Hv _ IHo]; constructor; [|exact IHo].
      cbn [snd] in *. destruct (sortObjByKey v); exact Hv. }
    specialize (Ho HA).
    match goal with |- context [sequence ?x] => destruct (sequence x) end; exact Ho.
Qed.

(** X13: [writeJSONFile] throws the [TypeError] of [Object.keys(null)]
    when the data hold a [null] somewhere, before it reads or writes the
    file; on data without [null] the one failure it has is that of the
    write, which leaves everything as it was. *)
Theorem writeJSONFile_throws_iff_null filePath (data : JSONObject) s :
  (has_null (JObject data) = true ->
   writeJSONFile P filePath data s
   = (inl (TypeError "Cannot convert undefined or null to object"), s)) /\
  (has_null (JObject data) = false ->
   forall e s',
   writeJSONFile P filePath data s = (inl e, s') ->
   s' = s /\
   exists code, write_error P (fs s) filePath = Some code /\ e = SystemError code filePath).
Proof.
  pose proof (sortObjByKey_throws (JObject data)) as Hsort.
  split; intros Hnull; unfold writeJSONFile; unfold bind at 1, lift;
    destruct (sortObjByKey (JObject data)) as [e|sorted] eqn:E.
  - rewrite Hsort. reflexivity.
  - congruence.
  - destruct (sortObjByKey_inr (JObject data) Hnull) as [sorted Hs]. congruence.
  - unfold bind, try_catch. rewrite readJSONFile_eq. intros e' s'.
    destruct (fs s !! filePath) as [text|];
      [destruct (JSON_parse P text) as [orig|]|]; unfold ret;
      (match goal with |- context [negb ?b] => destruct b end; cbn [negb];
       [discriminate|]);
      unfold writeFileSync;
      (destruct (write_error P (fs s) filePath) as [code|]; [|discriminate]);
      intros [= <- <-]; eauto.
Qed.

End Writing.

Lemma writePackageData_idempotent_witness :
  writePackageData Examples.workspace "/repo/package.json" [("name", JString "b")]
    (snd (writePackageData Examples.workspace "/repo/package.json" [("name", JString "b")]
            (initial_state [("/repo/package.json", "{}")])))
  = (inr false,
     snd (writePackageData Examples.workspace "/repo/package.json" [("name", JString "b")]
            (initial_state [("/repo/package.json", "{}")]))).
Proof.
  apply (writePackageData_idempotent Examples.workspace "/repo/package.json"
           [("name", JString "b")] (initial_state [("/repo/package.json", "{}")]) true).
  - intros c Hc. vm_compute in Hc.
    repeat (apply elem_of_cons in Hc as [->|Hc]; [discriminate|]).
    inversion Hc.
  - vm_compute. reflexivity.
Defined.

Lemma writeJSONFile_throws_iff_null_witness :
  writeJSONFile Examples.workspace "/repo/new.json"
    [("name", JString "b"); ("files", JArray [JString "lib"; JNull])] (initial_state [])
  = (inl (TypeError "Cannot convert undefined or null to object"), initial_state []).
Proof.
  apply (writeJSONFile_throws_iff_null Examples.workspace "/repo/new.json"
           [("name", JString "b"); ("files", JArray [JString "lib"; JNull])]
           (initial_state [])).
  reflexivity.
Defined.

(** ** More on the discovery *)

Section Lookup.

Context (P : Platform).

Lemma require_fs request s : fs (snd (require P request s)) = fs s.
Proof. apply (stable_fs P), stable_require. Qed.

(** X14: Without a manifest in the base directory, [getLernaPaths] throws the
    error "No yarn workspace / lerna package list found" whether or not
    there is a [lerna.json], which is not looked at, and changes nothing. *)
Theorem getLernaPaths_needs_manifest basePath s :
  require_resolve P (fs s) None (path_join P (path_resolve P basePath) "package.json") = None ->
  getLernaPaths P basePath s =
  (inl (JsError ("No yarn workspace / lerna package list found in "
                 +:+ path_resolve P basePath)), s).
Proof.
  intros Hnone. unfold getLernaPaths.
  unfold bind at 1, try_catch. unfold bind at 1.
  rewrite (require_unresolved _ _ _ Hnone). reflexivity.
Qed.

(** X15: A failure of loading the manifest of the base directory other than
    MODULE_NOT_FOUND, such as a manifest that is not JSON, is thrown on as
    it is. *)
Theorem getLernaPaths_rethrows basePath s e s1 :
  require P (path_join P (path_resolve P basePath) "package.json") s = (inl e, s1) ->
  is_MODULE_NOT_FOUND e = false ->
  getLernaPaths P basePath s = (inl e, s1).
Proof.
  intros Hreq He. unfold getLernaPaths.
  unfold bind at 1, try_catch. unfold bind at 1. rewrite Hreq, He. reflexivity.
Qed.

(** X16: When the manifest of the base directory has no [workspaces], or a falsy
    one, and [lerna.json] gives the globs [globs] as its [packages],
    [getLernaPaths] returns the matches of these globs that hold a
    [package.json], in the order of the globs. *)
Theorem getLernaPaths_lerna basePath s baseConfig s1 workspaces lerna s2
    (globs : list string) :
  let base := path_resolve P basePath in
  let has_manifest := fun pkgPath => existsSync (fs s) (path_join P pkgPath "package.json") in
  let matched := List.concat (map (fun g => glob_sync P (fs s) (path_join P base g)) globs) in
  require P (path_join P base "package.json") s = (inr baseConfig, s1) ->
  prop baseConfig "workspaces" = inr workspaces ->
  truthy workspaces = false ->
  require P (path_join P base "lerna.json") s1 = (inr lerna, s2) ->
  prop lerna "packages" = inr (Some (JArray (map JString globs))) ->
  getLernaPaths P basePath s = (inr (List.filter has_manifest matched), s2).
Proof.
  intros base has_manifest matched Hreq Hprop Hfalsy Hlerna Hpackages.
  assert (fs s2 = fs s) as Hfs.
  { pose proof (require_fs (path_join P base "lerna.json") s1) as H2.
    pose proof (require_fs (path_join P base "package.json") s) as H1.
    rewrite Hlerna in H2. rewrite Hreq in H1. simpl in H1, H2. congruence. }
  unfold getLernaPaths. fold base.
  unfold bind at 1, try_catch. unfold bind at 1. rewrite Hreq.
  unfold bind at 1, lift at 1. rewrite Hprop.
  assert ((match workspaces with
           | Some ws =>
               if truthy workspaces
               then let* ws_packages := lift (prop ws "packages") in
                    ret (if truthy ws_packages then ws_packages else workspaces)
               else let* baseConfig0 := require P (path_join P base "lerna.json") in
                    lift (prop baseConfig0 "packages")
           | None =>
               let* baseConfig0 := require P (path_join P base "lerna.json") in
               lift (prop baseConfig0 "packages")
           end) s1 = (inr (Some (JArray (map JString globs))), s2)) as ->.
  { destruct workspaces as [ws|]; rewrite ?Hfalsy;
      unfold bind, lift; rewrite Hlerna, Hpackages; reflexivity. }
  unfold bind at 1, lift at 1. cbn [iterate].
  unfold bind at 1. rewrite glob_loop. simpl. rewrite Hfs. reflexivity.
Qed.

(** X17: A [workspaces] object without a truthy [packages] is taken for the
    list of globs itself: [getLernaPaths] throws a [TypeError], as an
    object cannot be iterated over. *)
Theorem getLernaPaths_not_iterable basePath s baseConfig s1 (o : JSONObject) :
  require P (path_join P (path_resolve P basePath) "package.json") s = (inr baseConfig, s1) ->
  prop baseConfig "workspaces" = inr (Some (JObject o)) ->
  truthy (obj_get "packages" o) = false ->
  getLernaPaths P basePath s = (inl (TypeError "not iterable"), s1).
Proof.
  intros Hreq Hprop Hfalsy. unfold getLernaPaths.
  unfold bind at 1, try_catch. unfold bind at 1. rewrite Hreq.
  unfold bind at 1, lift at 1. rewrite Hprop. cbn [truthy].
  unfold bind at 1, lift at 1. cbn [prop]. unfold ret. rewrite Hfalsy.
  reflexivity.
Qed.

(** X18: [getLernaPaths] only reads: it changes and writes no file, and run
    again in the state it left it gives the same result. *)
Theorem getLernaPaths_read_only basePath s :
  fs (snd (getLernaPaths P basePath s)) = fs s /\
  fs_writes (snd (getLernaPaths P basePath s)) = fs_writes s /\
  fst (getLernaPaths P basePath (snd (getLernaPaths P basePath s)))
  = fst (getLernaPaths P basePath s).
Proof.
  pose proof (stable_getLernaPaths P basePath) as Hstable.
  destruct (proj1 Hstable s) as (Hfs & _ & _ & _ & Hwrites).
  split; [exact Hfs|]. split; [exact Hwrites|].
  apply (stable_replay P). exact Hstable.
Qed.

End Lookup.

Lemma getLernaPaths_needs_manifest_witness :
  getLernaPaths Examples.broken "." (initial_state MoreExamples.lerna_only_files) =
  (inl (JsError ("No yarn workspace / lerna package list found in "
                 +:+ path_resolve Examples.broken ".")),
   initial_state MoreExamples.lerna_only_files).
Proof.
  apply (getLernaPaths_needs_manifest Examples.broken "."
           (initial_state MoreExamples.lerna_only_files)).
  vm_compute. reflexivity.
Defined.

Lemma getLernaPaths_rethrows_witness :
  getLernaPaths Examples.broken "." (initial_state MoreExamples.invalid_files) =
  (inl (SyntaxError "{ name: root"), initial_state MoreExamples.invalid_files).
Proof.
  apply (getLernaPaths_rethrows Examples.broken "."
           (initial_state MoreExamples.invalid_files)).
  - vm_compute. reflexivity.
  - reflexivity.
Defined.

Lemma getLernaPaths_lerna_witness :
  getLernaPaths Examples.broken "." (initial_state MoreExamples.lerna_files) =
  (inr ["/repo/packages/a"],
   snd (require Examples.broken "/repo/lerna.json"
          (snd (require Examples.broken "/repo/package.json"
                  (initial_state MoreExamples.lerna_files))))).
Proof.
  apply (getLernaPaths_lerna Examples.broken "." (initial_state MoreExamples.lerna_files)
           Examples.b_manifest
           (snd (require Examples.broken "/repo/package.json"
                   (initial_state MoreExamples.lerna_files)))
           None MoreExamples.lerna_config
           (snd (require Examples.broken "/repo/lerna.json"
                   (snd (require Examples.broken "/repo/package.json"
                           (initial_state MoreExamples.lerna_files)))))
           ["packages/*"]).
  - vm_compute. reflexivity.
  - reflexivity.
  - reflexivity.
  - vm_compute. reflexivity.
  - reflexivity.
Defined.

Lemma getLernaPaths_not_iterable_witness :
  getLernaPaths Examples.broken "." (initial_state MoreExamples.nohoist_files) =
  (inl (TypeError "not iterable"),
   snd (require Examples.broken "/repo/package.json"
          (initial_state MoreExamples.nohoist_files))).
Proof.
  apply (getLernaPaths_not_iterable Examples.broken "."
           (initial_state MoreExamples.nohoist_files) MoreExamples.nohoist_root
           (snd (require Examples.broken "/repo/package.json"
                   (initial_state MoreExamples.nohoist_files)))
           [("nohoist", JArray [JString "**/react"])]).
  - vm_compute. reflexivity.
  - reflexivity.
  - reflexivity.
Defined.

(** ** More on the gathering of the manifests and on the graph *)

Section Gathering.

Context (P : Platform).


(** [gather] in terms of the manifest of the path. *)
Lemma gather_manifest locals pkgPath s :
  match manifest P (fs s) pkgPath with
  | Some data =>
      gather P locals pkgPath s =
      match prop data "name" with
      | inr name => (inr (obj_set (ToPropertyKey name) data locals), s)
      | inl e => (inl e, s)
      end
  | None =>
      exists s', gather P locals pkgPath s = (inr locals, s') /\ fs s' = fs s
  end.
Proof.
  rewrite gather_eq, readJSONFile_eq. unfold manifest.
  destruct (fs s !! path_join P pkgPath "package.json") as [text|].
  - destruct (JSON_parse P text) as [data|]; [reflexivity|]. eauto.
  - eauto.
Qed.

Lemma prop_TypeError data key e :
  prop data key = inl e -> exists what, e = TypeError what.
Proof. destruct data; simpl; intros [= <-]; eauto. Qed.



Lemma gather_null paths pkgPath :
  pkgPath ∈ paths ->
  forall locals s,
  manifest P (fs s) pkgPath = Some JNull ->
  exists what s', foldM (gather P) paths locals s = (inl (TypeError what), s').
Proof.
  induction paths as [|q paths IH]; intros Hin locals s Hm.
  - exfalso. eapply not_elem_of_nil. exact Hin.
  - cbn [foldM]. unfold bind.
    pose proof (gather_manifest locals q s) as Hq.
    apply elem_of_cons in Hin as [<-|Hin].
    + rewrite Hm in Hq. rewrite Hq. simpl. eauto.
    + destruct (manifest P (fs s) q) as [data|].
      * rewrite Hq. destruct (prop data "name") as [e|name] eqn:Hname.
        -- destruct (prop_TypeError _ _ _ Hname) as [what ->]. eauto.
        -- apply IH; assumption.
      * destruct Hq as (s1 & -> & Hfs). apply IH; [assumption|]. rewrite Hfs. exact Hm.
Qed.

(** X20: A manifest that holds the JSON value [null] is not skipped as an
    unreadable one is: reading its name throws a [TypeError], with which
    the gathering of the manifests ends. *)
Theorem gather_locals_null_manifest paths pkgPath s :
  pkgPath ∈ paths ->
  manifest P (fs s) pkgPath = Some JNull ->
  exists what s', gather_locals P paths s = (inl (TypeError what), s').
Proof. intros Hin Hm. apply (gather_null paths pkgPath Hin [] s Hm). Qed.


End Gathering.


Lemma gather_locals_null_manifest_witness :
  exists what s',
    gather_locals Examples.workspace ["/repo/packages/a"; "/repo/packages/b"]
      (initial_state MoreExamples.null_files)
    = (inl (TypeError what), s').
Proof.
  apply (gather_locals_null_manifest Examples.workspace
           ["/repo/packages/a"; "/repo/packages/b"] "/repo/packages/b"
           (initial_state MoreExamples.null_files)).
  - apply list_elem_of_further, list_elem_of_here.
  - vm_compute. reflexivity.
Defined.


(** ** The JSON text: the parser reads back what the printer prints *)

Section RoundTrip.

Implicit Types (s rest ws indent : string) (c : ascii).






(** Numbers *)



































End RoundTrip.

(** ** The round trip of [writeJSONFile] and [readJSONFile] *)

Section WriteJSON.

Context (P : Platform).

(** [JSON.parse] and [JSON.stringify] are the parser and the printer of
    the model. *)
Hypothesis JSON_parse_is : forall text, JSON_parse P text = parse_JSON text.
Hypothesis JSON_stringify_is : forall v, JSON_stringify P v = print_JSON v.



End WriteJSON.


